(** * PromptShield: the prompt threat detector

    A shallow embedding of [backend/detector.py] and [backend/ml_model.py]
    and the properties of the scoring engine: text normalisation, fuzzy
    lexicon matching, the proximity scorer, score fusion and the classifier
    adapter.

    Modelling choices.
    - A Python [str] is a list of characters; a character is a code point
      below 256 (Basic Latin and Latin-1 Supplement), carried by [ascii].
      The character classes and case maps of that range are written out in
      full in [Text].
    - A Python [int] is [Z] (or [nat] where it is a length or a distance).
      A finite Python [float] is the rational it denotes, [Q]; products,
      sums and [round] are taken exactly, where Python rounds each result
      to the nearest double. The two can differ in the last decimal of a
      score, so the theorems about scores state bounds, orders and
      values of the integer path only, which that rounding keeps.
    - A call that may raise returns an [outcome]; [try]/[except Exception]
      is [try_except]. Signals that are not an [Exception] (interrupts,
      exits) are not modelled.
    - The pickled model and vectorizer are library objects: they appear
      as records of methods that may raise.

    Also embedded: the import of [ml_model] with its two artifact files,
    the script [ml_request.py], [main] of [detector.py], and from
    [ml_train.py] the extraction of the human prompt and the reading of
    the corpus. The fitting of the classifier, the file system paths and
    the JSON encoding are library code and are left out. *)

From Stdlib Require Import Ascii String List ZArith QArith Qround Lia Lqa Bool Arith.
From Stdlib Require Import Sorted.
Import ListNotations.

Set Implicit Arguments.
Close Scope Q_scope.

(** Case analysis on the 256 characters. *)
Ltac each_char c := destruct c as [[] [] [] [] [] [] [] []].

(* ================================================================== *)
(** * Python values and control *)
(* ================================================================== *)

Module Py.

(** An [Exception] instance, by class name. *)
Inductive exn : Type :=
| Exn (cls : string).

Inductive outcome (A : Type) : Type :=
| Returns (a : A)
| Raises (e : exn).

Arguments Returns {A} a.
Arguments Raises {A} e.

Definition bind {A B : Type} (m : outcome A) (k : A -> outcome B) : outcome B :=
  match m with
  | Returns a => k a
  | Raises e => Raises e
  end.

(** [try: body  except Exception: handler] *)
Definition try_except {A : Type} (body : outcome A) (handler : outcome A) : outcome A :=
  match body with
  | Returns a => Returns a
  | Raises _ => handler
  end.

(** [l[i]] with Python's negative indices. *)
Definition index {A : Type} (l : list A) (i : Z) : outcome A :=
  let n := Z.of_nat (length l) in
  let j := if (i <? 0)%Z then (n + i)%Z else i in
  if ((0 <=? j) && (j <? n))%Z then
    match nth_error l (Z.to_nat j) with
    | Some x => Returns x
    | None => Raises (Exn "IndexError"%string)
    end
  else Raises (Exn "IndexError"%string).

(** [l[i] = v] for an index in range. *)
Fixpoint set_item {A : Type} (l : list A) (i : nat) (v : A) : list A :=
  match l, i with
  | [], _ => []
  | _ :: t, O => v :: t
  | x :: t, S i' => x :: set_item t i' v
  end.

(** [enumerate(l)], counting from [start]. *)
Fixpoint enumerate_from {A : Type} (start : Z) (l : list A) : list (Z * A) :=
  match l with
  | [] => []
  | x :: t => (start, x) :: enumerate_from (start + 1) t
  end.

Definition enumerate {A : Type} (l : list A) : list (Z * A) := enumerate_from 0 l.

(** Round half to even, to an integer. *)
Definition round_half_even (q : Q) : Z :=
  let f := Qfloor q in
  match Qcompare (q - inject_Z f)%Q (1 # 2)%Q with
  | Lt => f
  | Gt => (f + 1)%Z
  | Eq => if Z.even f then f else (f + 1)%Z
  end.

(** [round(q, ndigits)], as the exact decimal; Python returns the double
    nearest to it. *)
Definition round (q : Q) (ndigits : nat) : Q :=
  let p := Z.to_pos (10 ^ Z.of_nat ndigits) in
  Qmake (round_half_even (q * inject_Z (Zpos p))%Q) p.

(** [min(a, b)]: the first argument unless the second is smaller. *)
Definition min (a b : Q) : Q := if Qle_bool a b then a else b.

(** [max(a, b)]: the first argument unless the second is larger. *)
Definition max (a b : Q) : Q := if Qle_bool b a then a else b.

End Py.

Notation "x <- m ;; k" := (Py.bind m (fun x => k))
  (at level 61, m at next level, right associativity).

(* ================================================================== *)
(** * Text: [str] methods and the two regular expressions *)
(* ================================================================== *)

Module Text.

Definition str : Type := list ascii.

Definition lit (s : string) : str := list_ascii_of_string s.

Definition code (c : ascii) : N := N_of_ascii c.

Definition between (lo hi n : N) : bool := ((lo <=? n) && (n <=? hi))%N.

(** [c.isspace()], which is also the class [\s]. *)
Definition is_space (c : ascii) : bool :=
  let n := code c in
  between 9 13 n || between 28 32 n || (n =? 133)%N || (n =? 160)%N.

(** [c.isalpha()] *)
Definition is_alpha (c : ascii) : bool :=
  let n := code c in
  between 65 90 n || between 97 122 n
  || (n =? 170)%N || (n =? 181)%N || (n =? 186)%N
  || between 192 214 n || between 216 246 n || between 248 255 n.

(** [c.isdecimal() or c.isdigit() or c.isnumeric()] *)
Definition is_numeric (c : ascii) : bool :=
  let n := code c in
  between 48 57 n || (n =? 178)%N || (n =? 179)%N || (n =? 185)%N
  || between 188 190 n.

Definition underscore : ascii := "_"%char.
Definition space : ascii := " "%char.

(** The class [\w]: alphanumeric or underscore. *)
Definition is_word (c : ascii) : bool :=
  is_alpha c || is_numeric c || Ascii.eqb c underscore.

Definition lower_char (c : ascii) : ascii :=
  let n := code c in
  if between 65 90 n || (between 192 222 n && negb (n =? 215)%N)
  then ascii_of_N (n + 32) else c.

(** [s.lower()] *)
Definition lower (s : str) : str := map lower_char s.

(** [c.upper()]; [None] where the upper-case form lies outside the
    modelled range (U+00B5 gives U+039C, U+00FF gives U+0178), so that
    nothing is said about the upper-case form of a string with one of
    these two characters. *)
Definition upper_char (c : ascii) : option str :=
  let n := code c in
  if (n =? 181)%N || (n =? 255)%N then None
  else if (n =? 223)%N then Some (lit "SS")
  else if between 97 122 n || (between 224 254 n && negb (n =? 247)%N)
  then Some [ascii_of_N (n - 32)] else Some [c].

(** [s.upper()] *)
Fixpoint upper (s : str) : option str :=
  match s with
  | [] => Some []
  | c :: t =>
      match upper_char c, upper t with
      | Some u, Some v => Some (u ++ v)
      | _, _ => None
      end
  end.

Fixpoint lstrip (s : str) : str :=
  match s with
  | [] => []
  | c :: t => if is_space c then lstrip t else s
  end.

Definition rstrip (s : str) : str := rev (lstrip (rev s)).

(** [s.strip()] *)
Definition strip (s : str) : str := rstrip (lstrip s).

(** [re.sub(r"[^\w\s]", " ", s)] *)
Definition sub_non_word (s : str) : str :=
  map (fun c => if negb (is_word c || is_space c) then space else c) s.

(** [re.sub(r"\s+", " ", s)]: [in_run] tells whether the previous
    character belonged to the run of white space being replaced. *)
Fixpoint sub_space_runs_from (in_run : bool) (s : str) : str :=
  match s with
  | [] => []
  | c :: t =>
      if is_space c
      then (if in_run then sub_space_runs_from true t
            else space :: sub_space_runs_from true t)
      else c :: sub_space_runs_from false t
  end.

Definition sub_space_runs (s : str) : str := sub_space_runs_from false s.

(** [s.split()]: [cur] is the word being read. *)
Fixpoint split_from (cur : str) (s : str) : list str :=
  match s with
  | [] => match cur with [] => [] | _ => [cur] end
  | c :: t =>
      if is_space c
      then match cur with [] => split_from [] t | _ => cur :: split_from [] t end
      else split_from (cur ++ [c]) t
  end.

Definition split (s : str) : list str := split_from [] s.

Definition str_eqb (a b : str) : bool :=
  if list_eq_dec ascii_dec a b then true else false.

Fixpoint startswith (p s : str) : bool :=
  match p, s with
  | [], _ => true
  | _ :: _, [] => false
  | x :: p', y :: s' => Ascii.eqb x y && startswith p' s'
  end.

(** [needle in hay] for strings *)
Fixpoint contains (needle hay : str) : bool :=
  startswith needle hay ||
  match hay with
  | [] => false
  | _ :: t => contains needle t
  end.

(** [x in l] for a list of strings *)
Definition mem (x : str) (l : list str) : bool := existsb (str_eqb x) l.

End Text.

Import Text.

(* ================================================================== *)
(** * ml_model.py *)
(* ================================================================== *)

Module MlModel.

Import Py.

(** The dictionary [{"ml_prediction": ..., "ml_confidence": ...}]. *)
Record MLResult : Type := {
  ml_prediction : str;
  ml_confidence : Q
}.

(** The unpickled artifacts, over the type of feature matrices. Their
    methods are library code and may raise. *)
Record Vectorizer (X : Type) : Type := {
  transform : list str -> outcome X
}.

Record Model (X : Type) : Type := {
  predict : X -> outcome (list Z);
  predict_proba : X -> outcome (list (list Q))
}.

(** Module start-up: the [try] around [load_model()] and
    [load_vectorizer()]. A file that is not there raises
    [FileNotFoundError], which sets both globals to [None]. *)
Definition load_globals {X : Type}
    (model_pkl : option (Model X)) (vectorizer_pkl : option (Vectorizer X))
  : option (Model X) * option (Vectorizer X) :=
  match model_pkl, vectorizer_pkl with
  | Some m, Some v => (Some m, Some v)
  | _, _ => (None, None)
  end.

Definition _preprocess (prompt : option str) : str :=
  strip (lower (match prompt with Some p => p | None => [] end)).

Definition _SAFE_DEFAULT : MLResult :=
  {| ml_prediction := lit "SAFE"; ml_confidence := 0%Q |}.

(** The body of the [try] block of [predict_prompt]. *)
Definition predict_try {X : Type}
    (model : Model X) (vectorizer : Vectorizer X)
    (prompt : option str) : outcome MLResult :=
  let text := _preprocess prompt in
  X <- transform vectorizer [text] ;;
  preds <- predict model X ;;
  pred <- index preds 0 ;;
  probas <- predict_proba model X ;;
  proba <- index probas 0 ;;
  let label := if (pred =? 0)%Z then lit "SAFE" else lit "MALICIOUS" in
  confidence <- index proba pred ;;
  Returns {| ml_prediction := label;
             ml_confidence := round confidence 4 |}.

Definition predict_prompt {X : Type}
    (model : option (Model X)) (vectorizer : option (Vectorizer X))
    (prompt : option str) : outcome MLResult :=
  match model, vectorizer with
  | Some model, Some vectorizer =>
      try_except (predict_try model vectorizer prompt) (Returns _SAFE_DEFAULT)
  | _, _ => Returns _SAFE_DEFAULT
  end.

End MlModel.

(* ================================================================== *)
(** * detector.py *)
(* ================================================================== *)

Module Detector.

Import Py MlModel.

Definition RISKY_ACTIONS : list str := map lit
  ["kill"; "hack"; "bypass"; "override"; "reveal"; "disable";
   "steal"; "access"; "make"; "create"; "build"; "produce"; "manufacture"]%string.

Definition SENSITIVE_TARGETS : list str := map lit
  ["human"; "person"; "people"; "user"; "system"; "database";
   "password"; "account"; "server"; "backend"; "drug"; "cocaine";
   "bomb"; "weapon"; "explosive"]%string.

Definition SAFE_TARGETS : list str := map lit
  ["virus"; "bug"; "malware"; "error"; "issue"; "file"]%string.

Definition MAX_DISTANCE : Z := 3.

(** The table [dp], a list of rows. *)
Definition table : Type := list (list nat).

Definition get (dp : table) (i j : nat) : nat := nth j (nth i dp []) 0.

Definition set (dp : table) (i j : nat) (v : nat) : table :=
  set_item dp i (set_item (nth i dp []) j v).

Definition min3 (x y z : nat) : nat := Nat.min (Nat.min x y) z.

Definition char_at (s : str) (i : nat) : ascii := nth i s Ascii.zero.

(** The table is filled row by row. Every index the loops use is in
    range, so no update is lost and no default value is read. *)
Definition _levenshtein (a b : str) : nat :=
  let m := length a in
  let n := length b in
  let dp := repeat (repeat 0 (n + 1)) (m + 1) in
  let dp := fold_left (fun dp i => set dp i 0 i) (seq 0 (m + 1)) dp in
  let dp := fold_left (fun dp j => set dp 0 j j) (seq 0 (n + 1)) dp in
  let dp :=
    fold_left (fun dp i =>
      fold_left (fun dp j =>
        let cost := if Ascii.eqb (char_at a (i - 1)) (char_at b (j - 1))
                    then 0 else 1 in
        set dp i j (min3 (get dp (i - 1) j + 1)
                         (get dp i (j - 1) + 1)
                         (get dp (i - 1) (j - 1) + cost)))
        (seq 1 n) dp)
      (seq 1 m) dp in
  get dp m n.

(** [best_dist], which starts at [float("inf")]. *)
Inductive dist : Type :=
| Inf
| Fin (d : nat).

Definition lt_dist (d : nat) (best_dist : dist) : bool :=
  match best_dist with
  | Inf => true
  | Fin e => d <? e
  end.

Definition _closest_match (token : str) (candidates : list str) (max_dist : nat)
  : option str :=
  fst (fold_left (fun (st : option str * dist) c =>
         let '(best, best_dist) := st in
         let d := _levenshtein token c in
         if (d <=? max_dist) && lt_dist d best_dist
         then (Some c, Fin d) else (best, best_dist))
       candidates (None, Inf)).

(** A token hit, [{"word": ..., "idx": ...}]. *)
Record hit : Type := {
  word : str;
  idx : Z
}.

(** [token if token in lexicon else _closest_match(token, lexicon, 1)] *)
Definition match_token (token : str) (lexicon : list str) : option str :=
  if mem token lexicon then Some token else _closest_match token lexicon 1.

(** Truth value of a match: [None] and the empty string are false. *)
Definition truthy (o : option str) : bool :=
  match o with
  | Some (_ :: _) => true
  | _ => false
  end.

(** One pass of [if m: hits.append({"word": m, "idx": idx})]. *)
Definition append_hit (hits : list hit) (m : option str) (i : Z) : list hit :=
  match m with
  | Some w => if truthy m then hits ++ [{| word := w; idx := i |}] else hits
  | None => hits
  end.

(** The loop over [enumerate(tokens)]. *)
Definition scan (tokens : list str) : list hit * list hit * list hit :=
  fold_left (fun (st : list hit * list hit * list hit) (it : Z * str) =>
      let '(action_indices, sensitive_indices, safe_indices) := st in
      let '(i, token) := it in
      let action_indices :=
        append_hit action_indices (match_token token RISKY_ACTIONS) i in
      let sensitive_indices :=
        append_hit sensitive_indices (match_token token SENSITIVE_TARGETS) i in
      let safe_indices :=
        append_hit safe_indices (match_token token SAFE_TARGETS) i in
      (action_indices, sensitive_indices, safe_indices))
    (enumerate tokens) ([], [], []).

(** The two nested loops: [weight] is added for each pair in the window. *)
Definition add_pairs (weight : Z) (xs ys : list hit) (score : Z) : Z :=
  fold_left (fun score a =>
      fold_left (fun score t =>
          if (Z.abs (idx a - idx t) <=? MAX_DISTANCE)%Z
          then (score + weight)%Z else score)
        ys score)
    xs score.

(** [list({h["word"] for h in hits})]: the distinct words. The order in
    which Python lists a set is not specified; here it is that of
    [nodup]. *)
Definition unique_words (hits : list hit) : list str :=
  nodup (list_eq_dec ascii_dec) (map word hits).

(** The text after both substitutions and [strip]. *)
Definition normalize (prompt : str) : str :=
  let lower := lower prompt in
  let normalized := sub_non_word lower in
  strip (sub_space_runs normalized).

(** The value of [has_intent_phrase]. *)
Definition has_intent (normalized : str) : bool :=
  contains (lit "how to") normalized
  || contains (lit "ways to") normalized
  || contains (lit "method to") normalized.

Definition _keyword_score (prompt : str) : Z * list str * list str :=
  let normalized := normalize prompt in
  match normalized with
  | [] => (0%Z, [], [])
  | _ =>
      let tokens := split normalized in
      let has_intent_phrase := has_intent normalized in
      let '(action_indices, sensitive_indices, safe_indices) := scan tokens in
      let score := 0%Z in
      let score := add_pairs 3 action_indices sensitive_indices score in
      let score := add_pairs 1 action_indices safe_indices score in
      let score := if has_intent_phrase then (score + 1)%Z else score in
      let score := Z.min score 5 in
      let detected_actions := unique_words action_indices in
      let detected_targets := unique_words sensitive_indices in
      (score, detected_actions, detected_targets)
  end.

Record ThreatReport : Type := {
  threatScore : Q;
  threatLevel : str;
  detectedActions : list str;
  detectedTargets : list str;
  mlPrediction : str;
  mlConfidence : Q;
  confidence : str;
  explanation : string;
  scale : string;
  detectionMethod : string
}.

(** [predict_prompt] is the function imported from [ml_model]. The
    product and the sum are exact, see the note on floats above. *)
Definition analyze_prompt
    (predict_prompt : option str -> outcome MLResult)
    (prompt : option str) : outcome ThreatReport :=
  let prompt := strip (match prompt with Some p => p | None => [] end) in
  let '(keyword_score, detected_actions, detected_targets) :=
    _keyword_score prompt in
  let score := inject_Z keyword_score in
  let ml_prediction := lit "SAFE" in
  let ml_confidence := 0%Q in
  st <- try_except
      (ml_result <- predict_prompt (Some prompt) ;;
       let ml_prediction := MlModel.ml_prediction ml_result in
       let ml_confidence := MlModel.ml_confidence ml_result in
       if str_eqb ml_prediction (lit "MALICIOUS") then
         let ml_boost := (ml_confidence * 5)%Q in
         let score := (score + ml_boost)%Q in
         let score :=
           if Qle_bool (1 # 2)%Q ml_confidence then max score 7%Q else score in
         Returns (score, ml_prediction, ml_confidence)
       else Returns (score, ml_prediction, ml_confidence))
      (Returns (score, ml_prediction, ml_confidence)) ;;
  let '(score, ml_prediction, ml_confidence) := st in
  let score := min 10%Q (round score 1) in
  let threat_level :=
    if Qle_bool score 2%Q then lit "SAFE"
    else if Qle_bool score 6%Q then lit "MEDIUM"
    else lit "HIGH" in
  let confidence :=
    if Qle_bool 8%Q score then lit "high"
    else if Qle_bool 4%Q score then lit "medium"
    else lit "low" in
  let explanation :=
    "Analysis based on keyword patterns and machine learning detection."%string in
  Returns {| threatScore := score;
             threatLevel := threat_level;
             detectedActions := detected_actions;
             detectedTargets := detected_targets;
             mlPrediction := ml_prediction;
             mlConfidence := ml_confidence;
             confidence := confidence;
             explanation := explanation;
             scale := "0–10"%string;
             detectionMethod := "Keyword + Machine Learning"%string |}.

(** The detector linked with [ml_model] and its loaded artifacts. *)
Definition analyze {X : Type}
    (model : option (Model X)) (vectorizer : option (Vectorizer X))
    (prompt : option str) : outcome ThreatReport :=
  analyze_prompt (predict_prompt model vectorizer) prompt.

End Detector.

Import Py MlModel Detector.


(* ================================================================== *)
(** * Specifications and invariants the code is compared with *)
(* ================================================================== *)

Module Spec.

(** The table has [m + 1] rows of [n + 1] cells. *)
Definition shape (m n : nat) (dp : table) : Prop :=
  length dp = m + 1 /\ forall i, i <= m -> length (nth i dp []) = n + 1.

(** Edit distance by recursion on both words: the cheapest of deleting
    the head of [a], inserting the head of [b], and matching the two
    heads (free when they agree). *)
Fixpoint lev_rec (a b : str) : nat :=
  match a with
  | [] => length b
  | x :: a' =>
      (fix inner (b : str) : nat :=
         match b with
         | [] => length a
         | y :: b' =>
             min3 (lev_rec a' b + 1) (inner b' + 1)
                  (lev_rec a' b' + (if Ascii.eqb x y then 0 else 1))
         end) b
  end.

(** [edits a b n]: some script of [n] single-character insertions,
    deletions and substitutions turns [a] into [b]. *)
Inductive edits : str -> str -> nat -> Prop :=
| edits_nil : edits [] [] 0
| edits_ins : forall a b y n, edits a b n -> edits a (y :: b) (S n)
| edits_del : forall a b x n, edits a b n -> edits (x :: a) b (S n)
| edits_keep : forall a b x n, edits a b n -> edits (x :: a) (x :: b) n
| edits_sub : forall a b x y n, edits a b n -> edits (x :: a) (y :: b) (S n).

(** Distance between the first [i] characters of [a] and the first [j]
    of [b], read from their last characters backwards. *)
Definition prefix_dist (a b : str) (i j : nat) : nat :=
  lev_rec (rev (firstn i a)) (rev (firstn j b)).

(** The cells of [dp] that are final when the loops reach cell [(i, j)]:
    row 0, column 0, the rows above [i] and row [i] left of [j]. *)
Definition filled (a b : str) (dp : table) (i j : nat) : Prop :=
  shape (length a) (length b) dp
  /\ forall i' j', i' <= length a -> j' <= length b ->
       i' = 0 \/ j' = 0 \/ i' < i \/ (i' = i /\ j' < j) ->
       get dp i' j' = prefix_dist a b i' j'.

(** [c] is the entry of [candidates] closest to [token] within
    [max_dist], the first among equally close ones: every entry before
    it is farther, no entry after it is nearer. *)
Definition first_closest (token : str) (candidates : list str)
    (max_dist : nat) (c : str) : Prop :=
  lev_rec token c <= max_dist
  /\ exists p q : list str,
       candidates = p ++ c :: q
       /\ (forall c', In c' p -> lev_rec token c < lev_rec token c')
       /\ (forall c', In c' q -> lev_rec token c <= lev_rec token c').

(** What [best] and [best_dist] hold once the loop of [_closest_match]
    has gone through [seen]. *)
Definition closest_state (token : str) (max_dist : nat) (seen : list str)
    (st : option str * dist) : Prop :=
  match st with
  | (None, Inf) => forall c, In c seen -> max_dist < lev_rec token c
  | (Some c, Fin e) =>
      e = lev_rec token c /\ first_closest token seen max_dist c
  | _ => False
  end.

(** The three lexicons of the detector. *)
Definition system_lexicon (lexicon : list str) : Prop :=
  lexicon = RISKY_ACTIONS \/ lexicon = SENSITIVE_TARGETS
  \/ lexicon = SAFE_TARGETS.

(** Entries of a lexicon are non-empty and pairwise at least three edits
    apart. *)
Definition separated (lexicon : list str) : bool :=
  forallb (fun a =>
      negb (str_eqb a [])
      && forallb (fun b => str_eqb a b || (3 <=? _levenshtein a b)) lexicon)
    lexicon.

(** The hits of one lexicon, token by token. *)
Definition hits_of (lexicon : list str) (tokens : list (Z * str)) : list hit :=
  flat_map (fun it : Z * str =>
      match match_token (snd it) lexicon with
      | Some (c :: w) => [{| word := c :: w; idx := fst it |}]
      | _ => []
      end) tokens.

Definition in_window (p : hit * hit) : bool :=
  (Z.abs (idx (fst p) - idx (snd p)) <=? 3)%Z.

(** Number of pairs of hits at most three tokens apart. *)
Definition pairs_in_window (xs ys : list hit) : Z :=
  Z.of_nat (length (filter in_window (list_prod xs ys))).

(** The keyword score as the scorer's rules give it. *)
Definition keyword_score (normalized : str) : Z :=
  let tokens := enumerate (split normalized) in
  let actions := hits_of RISKY_ACTIONS tokens in
  let sensitive := hits_of SENSITIVE_TARGETS tokens in
  let safe := hits_of SAFE_TARGETS tokens in
  Z.min 5 (3 * pairs_in_window actions sensitive
           + 1 * pairs_in_window actions safe
           + (if has_intent normalized then 1 else 0)).

(** Maximal runs of word characters; [cur] is the run being read. *)
Fixpoint word_runs_from (cur : str) (s : str) : list str :=
  match s with
  | [] => match cur with [] => [] | _ => [cur] end
  | c :: t =>
      if is_word c then word_runs_from (cur ++ [c]) t
      else match cur with
           | [] => word_runs_from [] t
           | _ => cur :: word_runs_from [] t
           end
  end.

Definition word_runs (s : str) : list str := word_runs_from [] s.

(** [sep.join(l)] *)
Fixpoint join (sep : str) (l : list str) : str :=
  match l with
  | [] => []
  | x :: t =>
      match t with
      | [] => x
      | _ :: _ => x ++ sep ++ join sep t
      end
  end.

(** The separator of the normalised text. *)
Definition sp : str := [space].

(** The last character of [s] is white space. *)
Fixpoint ends_with_space (s : str) : bool :=
  match s with
  | [] => false
  | c :: t =>
      match t with
      | [] => is_space c
      | _ :: _ => ends_with_space t
      end
  end.

(** A word: not empty and free of white space. *)
Definition solid (w : str) : Prop :=
  w <> [] /\ forall c, In c w -> is_space c = false.

(** A string that starts with a character other than white space. *)
Definition headed (s : str) : Prop :=
  match s with
  | [] => False
  | c :: _ => is_space c = false
  end.

(** Fusion, steps 1 to 3: the keyword score, the classifier's share, the
    override. *)
Definition fused_total (keyword_score : Z) (ml : MLResult) : Q :=
  let total := inject_Z keyword_score in
  if str_eqb (ml_prediction ml) (lit "MALICIOUS") then
    let total := (total + ml_confidence ml * 5)%Q in
    if Qle_bool (1 # 2) (ml_confidence ml)
    then (if Qle_bool 7 total then total else 7%Q)
    else total
  else total.

(** Fusion, step 4: a classifier that raises counts as the safe default. *)
Definition classifier_result (o : outcome MLResult) : MLResult :=
  match o with
  | Returns r => r
  | Raises _ => _SAFE_DEFAULT
  end.

(** [prompt or ""] *)
Definition or_empty (prompt : option str) : str :=
  match prompt with
  | Some p => p
  | None => []
  end.

(** A string of white space, the empty string included. *)
Definition blank_str (ws : str) : Prop := forallb is_space ws = true.

(** A prompt that is null, empty or white space only. *)
Definition blank (prompt : option str) : Prop :=
  match prompt with
  | None => True
  | Some s => blank_str s
  end.


(** The letter U+00DF, whose upper-case form is two letters. *)
Definition sharp_s : ascii := ascii_of_N 223.

(** The letters U+00B5 and U+00FF, whose upper-case forms lie above
    U+00FF. *)
Definition micro_sign : ascii := ascii_of_N 181.
Definition y_diaeresis : ascii := ascii_of_N 255.

End Spec.

(* ================================================================== *)
(** * Example classifiers and artifacts *)
(* ================================================================== *)

Module Examples.

(** A classifier result: MALICIOUS with confidence 0.9. *)
Definition malicious_09 : MLResult :=
  {| ml_prediction := lit "MALICIOUS"; ml_confidence := 9 # 10 |}.

(** Artifacts whose model labels every text 1 with probability 0.9. *)
Definition constant_vectorizer : Vectorizer unit :=
  {| transform := fun _ => Returns tt |}.

Definition malicious_model : Model unit :=
  {| predict := fun _ => Returns [1%Z];
     predict_proba := fun _ => Returns [[1 # 10; 9 # 10]%Q] |}.


(** A model whose [predict_proba] fails. *)
Definition failing_model : Model unit :=
  {| predict := fun _ => Returns [1%Z];
     predict_proba := fun _ => Raises (Exn "ValueError"%string) |}.

End Examples.

Import Spec.

(* ================================================================== *)
(** * ml_model.py: loading the artifacts *)
(* ================================================================== *)

Module Loading.

Import Py MlModel.

(** What lies at the path of an artifact: no file, or a file whose
    opening and unpickling gives a value or raises. *)
Inductive artifact (A : Type) : Type :=
| Missing
| Present (unpickled : outcome A).

Arguments Missing {A}.
Arguments Present {A} unpickled.

Definition FileNotFoundError : exn := Exn "FileNotFoundError"%string.

(** [isinstance(e, cls)], classes told apart by name. *)
Definition is_instance (cls : string) (e : exn) : bool :=
  match e with
  | Exn c => String.eqb c cls
  end.

(** [try: body  except cls: handler] *)
Definition try_except_only {A : Type} (cls : string)
    (body handler : outcome A) : outcome A :=
  match body with
  | Returns a => Returns a
  | Raises e => if is_instance cls e then handler else Raises e
  end.

Definition load_model {X : Type} (model_pkl : artifact (Model X))
  : outcome (Model X) :=
  match model_pkl with
  | Missing => Raises FileNotFoundError
  | Present unpickled => unpickled
  end.

Definition load_vectorizer {X : Type} (vectorizer_pkl : artifact (Vectorizer X))
  : outcome (Vectorizer X) :=
  match vectorizer_pkl with
  | Missing => Raises FileNotFoundError
  | Present unpickled => unpickled
  end.

(** The statements run when [ml_model] is imported: the values of the
    globals [model] and [vectorizer], or the exception that ends the
    import. *)
Definition import_ml_model {X : Type}
    (model_pkl : artifact (Model X)) (vectorizer_pkl : artifact (Vectorizer X))
  : outcome (option (Model X) * option (Vectorizer X)) :=
  try_except_only "FileNotFoundError"
    (model <- load_model model_pkl ;;
     vectorizer <- load_vectorizer vectorizer_pkl ;;
     Returns (Some model, Some vectorizer))
    (Returns (None, None)).

(** A file that is absent or unpickles without error, as an option. *)
Definition loaded {A : Type} (file : artifact A) : option A :=
  match file with
  | Present (Returns a) => Some a
  | _ => None
  end.

End Loading.

(* ================================================================== *)
(** * ml_request.py *)
(* ================================================================== *)

Module MlRequest.

Import Py MlModel Loading.

(** The script: what it prints, as the dictionary given to
    [json.dumps]. The import, the read of standard input and the
    prediction all run inside the [try]. *)
Definition script {X : Type}
    (model_pkl : artifact (Model X)) (vectorizer_pkl : artifact (Vectorizer X))
    (stdin_read : outcome str) : outcome MLResult :=
  try_except
    (globals <- import_ml_model model_pkl vectorizer_pkl ;;
     prompt <- stdin_read ;;
     result <- predict_prompt (fst globals) (snd globals) (Some prompt) ;;
     Returns result)
    (Returns {| ml_prediction := lit "SAFE"; ml_confidence := 0%Q |}).

End MlRequest.

(* ================================================================== *)
(** * detector.py: the command line *)
(* ================================================================== *)

Module Cli.

Import Py MlModel Detector.

(** [main()]: the report given to [json.dumps]. [argv] is [sys.argv],
    [stdin_read] the outcome of [sys.stdin.read()], which is evaluated
    only when there is no argument. *)
Definition main (predict_prompt : option str -> outcome MLResult)
    (argv : list str) (stdin_read : outcome str) : outcome ThreatReport :=
  prompt <- (if (1 <? Z.of_nat (length argv))%Z
             then index argv 1 else stdin_read) ;;
  analyze_prompt predict_prompt (Some prompt).

End Cli.

(* ================================================================== *)
(** * ml_train.py: reading the corpus *)
(* ================================================================== *)

Module MlTrain.

Import Py.

Definition HUMAN : str := lit "Human:".
Definition ASSISTANT : str := lit "Assistant:".

(** What follows the first occurrence of [sep] in [s], if there is one. *)
Fixpoint after_first (sep s : str) : option str :=
  if startswith sep s then Some (skipn (length sep) s)
  else match s with
       | [] => None
       | _ :: t => after_first sep t
       end.

(** [s.split(sep, 1)[-1]] for a non-empty [sep]. *)
Definition split_once_last (sep s : str) : str :=
  match after_first sep s with
  | Some rest => rest
  | None => s
  end.

(** [s.split(sep)[0]] for a non-empty [sep]: what precedes the first
    occurrence of [sep], or all of [s]. *)
Fixpoint before_first (sep s : str) : str :=
  if startswith sep s then []
  else match s with
       | [] => []
       | c :: t => c :: before_first sep t
       end.

Definition extract_human_prompt (text : option str) : str :=
  match text with
  | None => []
  | Some [] => []
  | Some text =>
      if negb (contains HUMAN text) then []
      else
        let after_human := strip (split_once_last HUMAN text) in
        let after_human :=
          if contains ASSISTANT after_human
          then before_first ASSISTANT after_human
          else after_human in
        strip after_human
  end.

Definition preprocess (text : option str) : str :=
  strip (lower (match text with Some t => t | None => [] end)).

(** A parsed line: [entry.get("chosen", "")] and
    [entry.get("rejected", "")]. *)
Record entry : Type := {
  chosen : str;
  rejected : str
}.

(** The body of the loop over the lines, after [json.loads]. *)
Definition add_entry (st : list str * list Z) (e : entry)
  : list str * list Z :=
  let '(texts, labels) := st in
  let human_chosen := extract_human_prompt (Some (chosen e)) in
  let human_rejected := extract_human_prompt (Some (rejected e)) in
  let human_chosen := preprocess (Some human_chosen) in
  let human_rejected := preprocess (Some human_rejected) in
  let '(texts, labels) :=
    match human_chosen with
    | [] => (texts, labels)
    | _ :: _ => (texts ++ [human_chosen], labels ++ [0%Z])
    end in
  match human_rejected with
  | [] => (texts, labels)
  | _ :: _ => (texts ++ [human_rejected], labels ++ [1%Z])
  end.

(** [texts] and [labels] as [main] has them before the vectorizer is
    fitted, or the [ValueError] for an empty corpus. *)
Definition read_corpus (entries : list entry) : outcome (list str * list Z) :=
  let '(texts, labels) := fold_left add_entry entries ([], []) in
  match texts with
  | [] => Raises (Exn "ValueError"%string)
  | _ :: _ => Returns (texts, labels)
  end.

End MlTrain.

Import Loading.

(* ================================================================== *)
(** * Rounding and comparison *)
(* ================================================================== *)

Section Rounding.

Open Scope Q_scope.

Lemma round_half_even_ge (k : Z) (q : Q) :
  inject_Z k <= q -> (k <= round_half_even q)%Z.
Proof.
  intros H. unfold round_half_even.
  assert (Hk : (k <= Qfloor q)%Z).
  { rewrite <- (Qfloor_Z k). now apply Qfloor_resp_le. }
  destruct (Qcompare _ _); [destruct (Z.even _)| |]; lia.
Qed.

Lemma round_half_even_le (k : Z) (q : Q) :
  q <= inject_Z k -> (round_half_even q <= k)%Z.
Proof.
  intros H. unfold round_half_even.
  assert (Hf : inject_Z (Qfloor q) <= q) by apply Qfloor_le.
  assert (Hk : (Qfloor q <= k)%Z).
  { rewrite Zle_Qle. now apply Qle_trans with q. }
  destruct (Z.eq_dec (Qfloor q) k) as [E | NE].
  - assert (Hq : q == inject_Z k).
    { apply Qle_antisym; [assumption | now rewrite <- E]. }
    assert (Hc : Qcompare (q - inject_Z (Qfloor q)) (1 # 2) = Lt).
    { rewrite E, Hq. rewrite <- Qlt_alt. ring_simplify. reflexivity. }
    rewrite Hc. lia.
  - destruct (Qcompare _ _); [destruct (Z.even _)| |]; lia.
Qed.

Lemma round_ge (k : Z) (q : Q) (n : nat) :
  inject_Z k <= q -> inject_Z k <= round q n.
Proof.
  intros H. unfold round.
  set (p := Z.to_pos (10 ^ Z.of_nat n)).
  assert (Hr : (k * Zpos p <= round_half_even (q * inject_Z (Zpos p)))%Z).
  { apply round_half_even_ge. rewrite inject_Z_mult.
    apply Qmult_le_compat_r; [assumption | ].
    unfold Qle; simpl; lia. }
  unfold Qle. simpl. lia.
Qed.

Lemma round_le (k : Z) (q : Q) (n : nat) :
  q <= inject_Z k -> round q n <= inject_Z k.
Proof.
  intros H. unfold round.
  set (p := Z.to_pos (10 ^ Z.of_nat n)).
  assert (Hr : (round_half_even (q * inject_Z (Zpos p)) <= k * Zpos p)%Z).
  { apply round_half_even_le. rewrite inject_Z_mult.
    apply Qmult_le_compat_r; [assumption | ].
    unfold Qle; simpl; lia. }
  unfold Qle. simpl. lia.
Qed.

End Rounding.

(* ================================================================== *)
(** * The proximity scorer *)
(* ================================================================== *)

Section Scorer.

Open Scope Z_scope.

Lemma inner_pairs (weight : Z) (a : hit) (ys : list hit) (score : Z) :
  fold_left (fun score t =>
      if Z.abs (idx a - idx t) <=? MAX_DISTANCE then score + weight else score)
    ys score
  = score + weight
            * Z.of_nat (length (filter in_window (map (fun y => (a, y)) ys))).
Proof.
  revert score. induction ys as [| t ys IH]; intros score; simpl.
  - lia.
  - rewrite IH. unfold in_window at 2. cbn [fst snd]. unfold MAX_DISTANCE.
    destruct (Z.abs (idx a - idx t) <=? 3); cbn [length];
      rewrite ?Nat2Z.inj_succ; lia.
Qed.

Lemma add_pairs_count (weight : Z) (xs ys : list hit) (score : Z) :
  add_pairs weight xs ys score = score + weight * pairs_in_window xs ys.
Proof.
  unfold add_pairs, pairs_in_window. revert score.
  induction xs as [| a xs IH]; intros score; simpl.
  - lia.
  - rewrite inner_pairs, IH, filter_app, length_app, Nat2Z.inj_add. ring.
Qed.

Lemma pairs_in_window_nonneg (xs ys : list hit) : 0 <= pairs_in_window xs ys.
Proof. unfold pairs_in_window. lia. Qed.

Lemma append_hit_app (hits : list hit) (m : option str) (i : Z) :
  append_hit hits m i
  = hits ++ match m with
            | Some (c :: w) => [{| word := c :: w; idx := i |}]
            | _ => []
            end.
Proof.
  destruct m as [[| c w] |]; simpl; now rewrite ?app_nil_r.
Qed.

Lemma scan_from (l : list (Z * str)) (acts sens safe : list hit) :
  fold_left (fun (st : list hit * list hit * list hit) (it : Z * str) =>
      let '(action_indices, sensitive_indices, safe_indices) := st in
      let '(i, token) := it in
      let action_indices :=
        append_hit action_indices (match_token token RISKY_ACTIONS) i in
      let sensitive_indices :=
        append_hit sensitive_indices (match_token token SENSITIVE_TARGETS) i in
      let safe_indices :=
        append_hit safe_indices (match_token token SAFE_TARGETS) i in
      (action_indices, sensitive_indices, safe_indices))
    l (acts, sens, safe)
  = (acts ++ hits_of RISKY_ACTIONS l,
     sens ++ hits_of SENSITIVE_TARGETS l,
     safe ++ hits_of SAFE_TARGETS l).
Proof.
  revert acts sens safe.
  induction l as [| [i token] l IH]; intros acts sens safe; simpl.
  - now rewrite !app_nil_r.
  - rewrite IH, !append_hit_app, <- !app_assoc. reflexivity.
Qed.

Lemma scan_hits (tokens : list str) :
  scan tokens
  = (hits_of RISKY_ACTIONS (enumerate tokens),
     hits_of SENSITIVE_TARGETS (enumerate tokens),
     hits_of SAFE_TARGETS (enumerate tokens)).
Proof. unfold scan. now rewrite scan_from. Qed.

Lemma has_intent_nil : has_intent [] = false.
Proof. reflexivity. Qed.

(** The three results of [_keyword_score], in closed form. *)
Lemma keyword_score_unfold (prompt : str) :
  _keyword_score prompt
  = (Spec.keyword_score (normalize prompt),
     unique_words (hits_of RISKY_ACTIONS (enumerate (split (normalize prompt)))),
     unique_words (hits_of SENSITIVE_TARGETS (enumerate (split (normalize prompt))))).
Proof.
  unfold _keyword_score, Spec.keyword_score.
  destruct (normalize prompt) as [| c s] eqn:E.
  - reflexivity.
  - rewrite scan_hits, !add_pairs_count.
    set (toks := enumerate (split (c :: s))).
    f_equal. f_equal.
    destruct (has_intent (c :: s)); rewrite Z.min_comm; f_equal; lia.
Qed.

Lemma keyword_score_range (normalized : str) :
  0 <= Spec.keyword_score normalized <= 5.
Proof.
  unfold Spec.keyword_score.
  set (toks := enumerate (split normalized)).
  pose proof (pairs_in_window_nonneg (hits_of RISKY_ACTIONS toks)
                (hits_of SENSITIVE_TARGETS toks)).
  pose proof (pairs_in_window_nonneg (hits_of RISKY_ACTIONS toks)
                (hits_of SAFE_TARGETS toks)).
  destruct (has_intent normalized); lia.
Qed.

Lemma code_keyword_score_range (prompt : str) :
  0 <= fst (fst (_keyword_score prompt)) <= 5.
Proof. rewrite keyword_score_unfold. simpl. apply keyword_score_range. Qed.

(** C5. The keyword score of every prompt is the scorer's sum: three for
    each action hit and sensitive-target hit at most three tokens apart
    (every pair counted), one for each action hit and safe-target hit in
    the same window, one if an intent phrase occurs in the normalised
    text, the sum capped at five. So it is an integer between 0 and 5; a
    pair exactly three tokens apart adds its weight and a pair four
    tokens apart adds nothing. *)
Theorem keyword_score_is_proximity_sum :
  (forall prompt : str,
      let tokens := enumerate (split (normalize prompt)) in
      let actions := hits_of RISKY_ACTIONS tokens in
      let sensitive := hits_of SENSITIVE_TARGETS tokens in
      let safe := hits_of SAFE_TARGETS tokens in
      fst (fst (_keyword_score prompt))
      = Z.min 5 (3 * pairs_in_window actions sensitive
                 + 1 * pairs_in_window actions safe
                 + (if has_intent (normalize prompt) then 1 else 0))
      /\ 0 <= fst (fst (_keyword_score prompt)) <= 5)
  /\ (forall (weight : Z) (a t : hit) (score : Z),
         add_pairs weight [a] [t] score
         = if Z.abs (idx a - idx t) <=? 3 then score + weight else score)
  /\ (forall (a t : hit) (score : Z),
         Z.abs (idx a - idx t) = 3 -> add_pairs 3 [a] [t] score = score + 3)
  /\ (forall (a t : hit) (score : Z),
         Z.abs (idx a - idx t) = 4 -> add_pairs 3 [a] [t] score = score)
  /\ _keyword_score (lit "hack a b password")
     = (3, [lit "hack"], [lit "password"])
  /\ _keyword_score (lit "hack a b c password")
     = (0, [lit "hack"], [lit "password"])
  /\ fst (fst (_keyword_score (lit "hack user password"))) = 5
  /\ _keyword_score (lit "show tools") = (1, [], []).
Proof.
  split; [| split; [| split; [| split; [| split; [| split; [| split]]]]]].
  - intros prompt. cbv zeta. split.
    + rewrite keyword_score_unfold. reflexivity.
    + apply code_keyword_score_range.
  - intros weight a t score. reflexivity.
  - intros a t score H. unfold add_pairs, MAX_DISTANCE. simpl. now rewrite H.
  - intros a t score H. unfold add_pairs, MAX_DISTANCE. simpl. now rewrite H.
  - vm_compute. reflexivity.
  - vm_compute. reflexivity.
  - vm_compute. reflexivity.
  - vm_compute. reflexivity.
Qed.

End Scorer.

(* ================================================================== *)
(** * Score fusion *)
(* ================================================================== *)

Section Fusion.

Open Scope Q_scope.

Variable predict : option str -> outcome MLResult.

(** What [analyze_prompt] returns, field by field. *)
Lemma analyze_prompt_report (prompt : option str) :
  let p := strip (or_empty prompt) in
  let ml := classifier_result (predict (Some p)) in
  let score :=
    min 10 (round (fused_total (fst (fst (_keyword_score p))) ml) 1) in
  exists rep : ThreatReport,
    analyze_prompt predict prompt = Returns rep
    /\ threatScore rep = score
    /\ threatLevel rep
       = (if Qle_bool score 2 then lit "SAFE"
          else if Qle_bool score 6 then lit "MEDIUM" else lit "HIGH")
    /\ confidence rep
       = (if Qle_bool 8 score then lit "high"
          else if Qle_bool 4 score then lit "medium" else lit "low")
    /\ detectedActions rep = snd (fst (_keyword_score p))
    /\ detectedTargets rep = snd (_keyword_score p)
    /\ mlPrediction rep = ml_prediction ml
    /\ mlConfidence rep = ml_confidence ml.
Proof.
  cbv zeta. unfold analyze_prompt, fused_total, classifier_result, or_empty.
  set (p := strip match prompt with Some p => p | None => [] end).
  destruct (_keyword_score p) as [[kw acts] tgts]. cbn [fst snd].
  destruct (predict (Some p)) as [r | e]; cbn [try_except bind].
  - destruct (str_eqb (MlModel.ml_prediction r) (lit "MALICIOUS"));
      cbn [bind]; unfold max;
      eexists; repeat split; reflexivity.
  - eexists; repeat split; reflexivity.
Qed.

Lemma min_10_le (q : Q) : min 10 q <= 10.
Proof.
  unfold min. destruct (Qle_bool 10 q) eqn:E.
  - apply Qle_refl.
  - apply Qnot_lt_le. intros H. apply Qlt_le_weak in H.
    apply Qle_bool_iff in H. congruence.
Qed.

Lemma min_10_ge (k q : Q) : k <= 10 -> k <= q -> k <= min 10 q.
Proof. intros H1 H2. unfold min. now destruct (Qle_bool 10 q). Qed.

Lemma fused_total_nonneg (kw : Z) (ml : MLResult) :
  (0 <= kw)%Z -> 0 <= ml_confidence ml -> 0 <= fused_total kw ml.
Proof.
  intros Hk Hc. unfold fused_total.
  assert (H0 : 0 <= inject_Z kw) by (unfold Qle; simpl; lia).
  assert (H1 : 0 <= inject_Z kw + ml_confidence ml * 5).
  { replace 0 with (0 + 0 * 5) by reflexivity.
    apply Qplus_le_compat; [assumption |].
    apply Qmult_le_compat_r; [assumption | discriminate]. }
  destruct (str_eqb _ _); [| assumption].
  destruct (Qle_bool (1 # 2) _); [| assumption].
  destruct (Qle_bool 7 _); [assumption | discriminate].
Qed.

Lemma fused_total_override (kw : Z) (ml : MLResult) :
  ml_prediction ml = lit "MALICIOUS" -> 1 # 2 <= ml_confidence ml ->
  7 <= fused_total kw ml.
Proof.
  intros Hl Hc. unfold fused_total. rewrite Hl. cbn [str_eqb].
  destruct (list_eq_dec ascii_dec (lit "MALICIOUS") (lit "MALICIOUS"));
    [| congruence].
  apply Qle_bool_iff in Hc. rewrite Hc.
  destruct (Qle_bool 7 _) eqn:E.
  - now apply Qle_bool_iff.
  - apply Qle_refl.
Qed.

End Fusion.

Section FusionClaims.

Open Scope Q_scope.

Lemma lstrip_blank (s : str) : forallb is_space s = true -> lstrip s = [].
Proof.
  induction s as [| c s IH]; simpl; [reflexivity |].
  intros H. apply andb_true_iff in H. destruct H as [Hc Hs].
  rewrite Hc. now apply IH.
Qed.

Lemma strip_blank (prompt : option str) :
  blank prompt -> strip (or_empty prompt) = [].
Proof.
  destruct prompt as [s |]; simpl; [| reflexivity].
  intros H. unfold strip. now rewrite (lstrip_blank s H).
Qed.

(** C1. For every prompt, null and empty included, and every classifier,
    raising or not, whose results have a confidence between 0 and 1,
    [analyze_prompt] returns a report, and the score of the report lies
    between 0 and 10. *)
Theorem analyze_returns_score_in_range :
  forall (predict : option str -> outcome MLResult) (prompt : option str),
    (forall p r, predict p = Returns r ->
                 0 <= ml_confidence r /\ ml_confidence r <= 1) ->
    exists rep : ThreatReport,
      analyze_prompt predict prompt = Returns rep
      /\ 0 <= threatScore rep /\ threatScore rep <= 10.
Proof.
  intros predict prompt Hconf.
  destruct (analyze_prompt_report predict prompt)
    as (rep & Hret & Hscore & _).
  exists rep. split; [exact Hret |]. rewrite Hscore.
  set (p := strip (or_empty prompt)).
  set (ml := classifier_result (predict (Some p))).
  assert (Hc : 0 <= ml_confidence ml).
  { unfold ml, classifier_result.
    destruct (predict (Some p)) as [r | e] eqn:E.
    - now apply (Hconf (Some p) r).
    - apply Qle_refl. }
  assert (Ht : 0 <= fused_total (fst (fst (_keyword_score p))) ml).
  { apply fused_total_nonneg; [| exact Hc].
    apply code_keyword_score_range. }
  split.
  - apply min_10_ge; [discriminate |]. now apply (@round_ge 0 _ 1).
  - apply min_10_le.
Qed.

Lemma analyze_returns_score_in_range_witness :
  exists rep : ThreatReport,
    analyze_prompt (fun _ => Returns Examples.malicious_09)
      (Some (lit "how to hack a password")) = Returns rep
    /\ 0 <= threatScore rep /\ threatScore rep <= 10.
Proof.
  apply (analyze_returns_score_in_range
           (fun _ => Returns Examples.malicious_09)
           (Some (lit "how to hack a password"))).
  intros p r H. injection H as <-. split; discriminate.
Defined.

Lemma str_eq_lit (a b : str) : str_eqb a b = true <-> a = b.
Proof.
  unfold str_eqb. destruct (list_eq_dec ascii_dec a b); split;
    congruence.
Qed.

(** C2. In every report the threat level and the confidence label are
    decided by the score alone: SAFE exactly when the score is at most 2,
    MEDIUM exactly when it is above 2 and at most 6, HIGH exactly when it
    is above 6; high exactly when the score is at least 8, medium exactly
    when it is at least 4 and below 8, low exactly when it is below 4. *)
Theorem levels_are_steps_of_score :
  forall (predict : option str -> outcome MLResult) (prompt : option str),
    exists rep : ThreatReport,
      analyze_prompt predict prompt = Returns rep
      /\ (threatLevel rep = lit "SAFE" <-> threatScore rep <= 2)
      /\ (threatLevel rep = lit "MEDIUM"
          <-> 2 < threatScore rep /\ threatScore rep <= 6)
      /\ (threatLevel rep = lit "HIGH" <-> 6 < threatScore rep)
      /\ (confidence rep = lit "high" <-> 8 <= threatScore rep)
      /\ (confidence rep = lit "medium"
          <-> 4 <= threatScore rep /\ threatScore rep < 8)
      /\ (confidence rep = lit "low" <-> threatScore rep < 4).
Proof.
  intros predict prompt.
  destruct (analyze_prompt_report predict prompt)
    as (rep & Hret & Hscore & Hlevel & Hconf & _).
  exists rep. split; [exact Hret |].
  rewrite Hlevel, Hconf, Hscore.
  set (s := min 10 _).
  assert (L : forall a b : Q, Qle_bool a b = false <-> b < a).
  { intros a b. split.
    - intros E. apply Qnot_le_lt. intros H. apply Qle_bool_iff in H.
      congruence.
    - intros H. destruct (Qle_bool a b) eqn:E; [| reflexivity].
      apply Qle_bool_iff in E. now apply Qle_not_lt in E. }
  destruct (Qle_bool s 2) eqn:E2; destruct (Qle_bool s 6) eqn:E6;
    destruct (Qle_bool 8 s) eqn:E8; destruct (Qle_bool 4 s) eqn:E4;
    rewrite ?Qle_bool_iff in *; rewrite ?L in *;
    repeat split; intros; try discriminate; try lra.
Qed.

End FusionClaims.

Section FusionExamples.

Open Scope Q_scope.

(** C3. Whatever the prompt, and so whatever the keyword score, a
    classifier result MALICIOUS with confidence at least 0.5 makes the
    returned score at least 7. *)
Theorem confident_malicious_scores_at_least_7 :
  forall (predict : option str -> outcome MLResult) (prompt : option str)
         (r : MLResult),
    predict (Some (strip (or_empty prompt))) = Returns r ->
    ml_prediction r = lit "MALICIOUS" ->
    1 # 2 <= ml_confidence r ->
    exists rep : ThreatReport,
      analyze_prompt predict prompt = Returns rep
      /\ 7 <= threatScore rep.
Proof.
  intros predict prompt r Hr Hlabel Hconf.
  destruct (analyze_prompt_report predict prompt)
    as (rep & Hret & Hscore & _).
  exists rep. split; [exact Hret |]. rewrite Hscore, Hr. cbn [classifier_result].
  apply min_10_ge; [discriminate |].
  apply (@round_ge 7 _ 1). now apply fused_total_override.
Qed.

Lemma confident_malicious_scores_at_least_7_witness :
  exists rep : ThreatReport,
    analyze_prompt
      (fun _ => Returns {| ml_prediction := lit "MALICIOUS";
                           ml_confidence := 1 # 2 |})
      (Some (lit "good morning")) = Returns rep
    /\ 7 <= threatScore rep.
Proof.
  apply (@confident_malicious_scores_at_least_7
           (fun _ => Returns {| ml_prediction := lit "MALICIOUS";
                                ml_confidence := 1 # 2 |})
           (Some (lit "good morning"))
           {| ml_prediction := lit "MALICIOUS"; ml_confidence := 1 # 2 |}).
  - reflexivity.
  - reflexivity.
  - discriminate.
Defined.

(** C4, as the code has it. For a prompt that is null, empty or white
    space only the keyword score is 0 and both evidence lists are empty,
    whatever the classifier does; the returned score is 0 whenever the
    classifier raises or returns a label other than MALICIOUS. *)
Theorem blank_prompt_has_no_keyword_evidence :
  forall (predict : option str -> outcome MLResult) (prompt : option str),
    blank prompt ->
    _keyword_score (strip (or_empty prompt)) = (0%Z, [], [])
    /\ exists rep : ThreatReport,
         analyze_prompt predict prompt = Returns rep
         /\ detectedActions rep = []
         /\ detectedTargets rep = []
         /\ (ml_prediction (classifier_result (predict (Some [])))
             <> lit "MALICIOUS" -> threatScore rep == 0).
Proof.
  intros predict prompt Hblank.
  pose proof (strip_blank prompt Hblank) as Hs.
  split; [now rewrite Hs |].
  destruct (analyze_prompt_report predict prompt)
    as (rep & Hret & Hscore & _ & _ & Hacts & Htgts & _).
  rewrite Hs in *. exists rep.
  split; [exact Hret |]. split; [exact Hacts |]. split; [exact Htgts |].
  intros Hlabel. rewrite Hscore. unfold fused_total.
  destruct (str_eqb _ (lit "MALICIOUS")) eqn:E.
  - apply str_eq_lit in E. contradiction.
  - reflexivity.
Qed.

Lemma blank_prompt_has_no_keyword_evidence_witness :
  _keyword_score (strip (or_empty (Some (lit "   ")))) = (0%Z, [], [])
  /\ exists rep : ThreatReport,
       analyze_prompt (fun _ => Returns _SAFE_DEFAULT) (Some (lit "   "))
       = Returns rep
       /\ detectedActions rep = []
       /\ detectedTargets rep = []
       /\ (ml_prediction (classifier_result (Returns _SAFE_DEFAULT))
           <> lit "MALICIOUS" -> threatScore rep == 0).
Proof.
  apply (@blank_prompt_has_no_keyword_evidence
           (fun _ => Returns _SAFE_DEFAULT) (Some (lit "   "))).
  reflexivity.
Defined.

(** C4, as stated, fails: on a prompt of three spaces, with artifacts
    whose model calls every text malicious with probability 0.9, the
    returned score is 7 and not 0. *)
Lemma blank_prompt_score_not_always_zero :
  blank (Some (lit "   "))
  /\ exists rep : ThreatReport,
       analyze (Some Examples.malicious_model)
               (Some Examples.constant_vectorizer) (Some (lit "   "))
       = Returns rep
       /\ threatScore rep == 7
       /\ ~ threatScore rep == 0.
Proof.
  split; [reflexivity |].
  eexists. split; [vm_compute; reflexivity |].
  split; [reflexivity | discriminate].
Qed.

(** C9. "How to hack a password?" with the classifier fixed to SAFE with
    confidence 0: the tokens are how, to, hack, a, password; the intent
    phrase is found; hack is an action hit at index 2 and password a
    sensitive-target hit at index 4; the keyword score is 4; the report
    has score 4.0, level MEDIUM and confidence medium. *)
Theorem example_how_to_hack_a_password :
  let prompt := lit "How to hack a password?" in
  let normalized := normalize (strip prompt) in
  let tokens := split normalized in
  tokens = [lit "how"; lit "to"; lit "hack"; lit "a"; lit "password"]
  /\ has_intent normalized = true
  /\ contains (lit "how to") normalized = true
  /\ scan tokens
     = ([{| word := lit "hack"; idx := 2 |}],
        [{| word := lit "password"; idx := 4 |}],
        [])
  /\ _keyword_score (strip prompt) = (4%Z, [lit "hack"], [lit "password"])
  /\ exists rep : ThreatReport,
       analyze_prompt (fun _ => Returns _SAFE_DEFAULT) (Some prompt)
       = Returns rep
       /\ analyze (X := unit) None None (Some prompt) = Returns rep
       /\ threatScore rep == 4
       /\ threatLevel rep = lit "MEDIUM"
       /\ confidence rep = lit "medium"
       /\ mlPrediction rep = lit "SAFE"
       /\ mlConfidence rep = 0.
Proof.
  cbv zeta.
  split; [vm_compute; reflexivity |].
  split; [vm_compute; reflexivity |].
  split; [vm_compute; reflexivity |].
  split; [vm_compute; reflexivity |].
  split; [vm_compute; reflexivity |].
  eexists. split; [vm_compute; reflexivity |].
  repeat split; vm_compute; reflexivity.
Qed.

End FusionExamples.

(* ================================================================== *)
(** * The classifier adapter *)
(* ================================================================== *)

Section Adapter.

Open Scope Q_scope.




Lemma predict_try_label {X : Type} (m : Model X) (v : Vectorizer X)
    (prompt : option str) (r : MLResult) :
  predict_try m v prompt = Returns r ->
  ml_prediction r = lit "SAFE" \/ ml_prediction r = lit "MALICIOUS".
Proof.
  unfold predict_try.
  destruct (transform v _) as [x |]; cbn [bind]; [| discriminate].
  destruct (predict m x) as [preds |]; cbn [bind]; [| discriminate].
  destruct (index preds 0) as [pred |]; cbn [bind]; [| discriminate].
  destruct (predict_proba m x) as [rows |]; cbn [bind]; [| discriminate].
  destruct (index rows 0) as [row |]; cbn [bind]; [| discriminate].
  destruct (index row pred) as [c |]; cbn [bind]; [| discriminate].
  intros H. injection H as <-. cbn [ml_prediction].
  destruct (pred =? 0)%Z; [now left | now right].
Qed.




(** A prediction step that raises is absorbed. *)
Example failing_model_gives_safe_default :
  predict_try Examples.failing_model Examples.constant_vectorizer
    (Some (lit "Hello")) = Raises (Exn "ValueError"%string)
  /\ predict_prompt (Some Examples.failing_model)
       (Some Examples.constant_vectorizer) (Some (lit "Hello"))
     = Returns _SAFE_DEFAULT.
Proof. split; reflexivity. Qed.

End Adapter.

(* ================================================================== *)
(** * Edit distance: the table of [_levenshtein] *)
(* ================================================================== *)

Section ListUpdate.

Context {A : Type}.

Lemma length_set_item (l : list A) (i : nat) (v : A) :
  length (set_item l i v) = length l.
Proof.
  revert i. induction l as [| x l IH]; intros [| i]; simpl; auto.
Qed.

Lemma nth_set_item_same (l : list A) (i : nat) (v d : A) :
  i < length l -> nth i (set_item l i v) d = v.
Proof.
  revert i. induction l as [| x l IH]; intros [| i]; simpl; intros H;
    try lia; auto. apply IH. lia.
Qed.

Lemma nth_set_item_other (l : list A) (i k : nat) (v d : A) :
  i <> k -> nth k (set_item l i v) d = nth k l d.
Proof.
  revert i k. induction l as [| x l IH]; intros [| i] [| k]; simpl;
    intros H; try congruence; auto.
Qed.

End ListUpdate.

Section Table.

Variables m n : nat.

Lemma shape_init : shape m n (repeat (repeat 0 (n + 1)) (m + 1)).
Proof.
  split.
  - apply repeat_length.
  - intros i Hi. rewrite nth_repeat_lt by lia. apply repeat_length.
Qed.

Lemma shape_set (dp : table) (i j v : nat) :
  shape m n dp -> i <= m -> shape m n (set dp i j v).
Proof.
  intros [Hl Hr] Hi. unfold set. split.
  - now rewrite length_set_item.
  - intros k Hk. destruct (Nat.eq_dec i k) as [<- | Hne].
    + rewrite nth_set_item_same by lia. rewrite length_set_item. now apply Hr.
    + rewrite nth_set_item_other by assumption. now apply Hr.
Qed.

Lemma get_set (dp : table) (i j v i' j' : nat) :
  shape m n dp -> i <= m -> j <= n ->
  get (set dp i j v) i' j'
  = if (i' =? i) && (j' =? j) then v else get dp i' j'.
Proof.
  intros [Hl Hr] Hi Hj. unfold get, set.
  destruct (Nat.eqb_spec i' i) as [-> | Hne]; simpl.
  - rewrite nth_set_item_same by lia.
    destruct (Nat.eqb_spec j' j) as [-> | Hnj].
    + apply nth_set_item_same. rewrite Hr by assumption. lia.
    + apply nth_set_item_other. congruence.
  - now rewrite nth_set_item_other by congruence.
Qed.

End Table.

(** A loop over [range(start, start + len)] keeps an invariant indexed
    by the loop counter. *)
Lemma fold_range_invariant {S : Type} (P : nat -> S -> Prop)
    (f : S -> nat -> S) (len start : nat) (st : S) :
  P start st ->
  (forall k st, start <= k < start + len -> P k st -> P (k + 1) (f st k)) ->
  P (start + len) (fold_left f (seq start len) st).
Proof.
  revert start st. induction len as [| len IH]; intros start st H0 Hstep.
  - simpl. now rewrite Nat.add_0_r.
  - simpl. replace (start + Datatypes.S len) with (Datatypes.S start + len) by lia.
    apply IH.
    + replace (Datatypes.S start) with (start + 1) by lia.
      apply Hstep; [lia | assumption].
    + intros k st' Hk. apply Hstep. lia.
Qed.

Section Recurrence.

Lemma lev_rec_nil_r (a : str) : lev_rec a [] = length a.
Proof. destruct a; reflexivity. Qed.

Lemma lev_rec_cons (x : ascii) (a : str) (y : ascii) (b : str) :
  lev_rec (x :: a) (y :: b)
  = min3 (lev_rec a (y :: b) + 1) (lev_rec (x :: a) b + 1)
         (lev_rec a b + (if Ascii.eqb x y then 0 else 1)).
Proof. reflexivity. Qed.

Lemma firstn_snoc (s : str) (i : nat) :
  i < length s -> firstn (S i) s = firstn i s ++ [char_at s i].
Proof.
  revert i. induction s as [| c s IH]; intros i H; simpl in H; [lia |].
  destruct i as [| i]; [reflexivity |].
  change (firstn (S (S i)) (c :: s)) with (c :: firstn (S i) s).
  rewrite IH by lia. reflexivity.
Qed.

Variables a b : str.

Lemma prefix_dist_row0 (j : nat) : j <= length b -> prefix_dist a b 0 j = j.
Proof.
  intros H. unfold prefix_dist. simpl.
  rewrite length_rev, length_firstn. lia.
Qed.

Lemma prefix_dist_col0 (i : nat) : i <= length a -> prefix_dist a b i 0 = i.
Proof.
  intros H. unfold prefix_dist. simpl.
  rewrite lev_rec_nil_r, length_rev, length_firstn. lia.
Qed.

Lemma prefix_dist_step (i j : nat) :
  i < length a -> j < length b ->
  prefix_dist a b (S i) (S j)
  = min3 (prefix_dist a b i (S j) + 1) (prefix_dist a b (S i) j + 1)
         (prefix_dist a b i j
          + (if Ascii.eqb (char_at a i) (char_at b j) then 0 else 1)).
Proof.
  intros Hi Hj. unfold prefix_dist.
  rewrite (firstn_snoc a Hi), (firstn_snoc b Hj), !rev_unit.
  apply lev_rec_cons.
Qed.

Lemma filled_start (dp : table) :
  shape (length a) (length b) dp ->
  (forall i, i <= length a -> get dp i 0 = i) ->
  (forall j, j <= length b -> get dp 0 j = j) ->
  filled a b dp 1 1.
Proof.
  intros Hs Hc Hr. split; [exact Hs |].
  intros i' j' Hi Hj H.
  assert (Hz : i' = 0 \/ j' = 0) by lia.
  destruct Hz as [-> | ->].
  - rewrite prefix_dist_row0 by assumption. now apply Hr.
  - rewrite prefix_dist_col0 by assumption. now apply Hc.
Qed.

Lemma filled_next_row (dp : table) (i : nat) :
  filled a b dp i (1 + length b) -> filled a b dp (i + 1) 1.
Proof.
  intros [Hs H]. split; [exact Hs |].
  intros i' j' Hi Hj Hc. apply H; try assumption. lia.
Qed.

Lemma filled_cell (dp : table) (i j : nat) :
  1 <= i <= length a -> 1 <= j <= length b ->
  filled a b dp i j ->
  filled a b
    (set dp i j
       (min3 (get dp (i - 1) j + 1) (get dp i (j - 1) + 1)
             (get dp (i - 1) (j - 1)
              + (if Ascii.eqb (char_at a (i - 1)) (char_at b (j - 1))
                 then 0 else 1))))
    i (j + 1).
Proof.
  intros Hi Hj [Hs H]. split; [apply shape_set; [assumption | lia] |].
  intros i' j' Hi' Hj' Hc.
  rewrite (@get_set _ _ _ _ _ _ _ _ Hs) by lia.
  destruct (Nat.eqb_spec i' i) as [-> | Hni];
    [destruct (Nat.eqb_spec j' j) as [-> | Hnj] |]; simpl.
  - rewrite !H by lia.
    destruct i as [| i0]; [lia |]. destruct j as [| j0]; [lia |].
    simpl. rewrite !Nat.sub_0_r.
    symmetry. apply prefix_dist_step; lia.
  - apply H; try assumption. lia.
  - apply H; try assumption. lia.
Qed.

(** The table computes the distance between the two whole words, read
    backwards. *)
Lemma levenshtein_table :
  _levenshtein a b = prefix_dist a b (length a) (length b).
Proof.
  unfold _levenshtein.
  set (m := length a). set (n := length b).
  set (dp0 := repeat (repeat 0 (n + 1)) (m + 1)).
  set (dp1 := fold_left (fun dp i => set dp i 0 i) (seq 0 (m + 1)) dp0).
  set (dp2 := fold_left (fun dp j => set dp 0 j j) (seq 0 (n + 1)) dp1).
  assert (H1 : shape m n dp1
               /\ forall i, i < 0 + (m + 1) -> i <= m -> get dp1 i 0 = i).
  { apply (fold_range_invariant
             (fun k dp => shape m n dp
                          /\ forall i, i < k -> i <= m -> get dp i 0 = i)).
    - split; [apply shape_init | intros; lia].
    - intros k dp Hk [Hs Hc]. split; [apply shape_set; [assumption | lia] |].
      intros i Hi Him. rewrite (@get_set _ _ _ _ _ _ _ _ Hs) by lia.
      destruct (Nat.eqb_spec i k) as [-> | Hne]; simpl; [reflexivity |].
      apply Hc; lia. }
  destruct H1 as [Hs1 Hc1].
  assert (H2 : shape m n dp2
               /\ (forall i, i <= m -> get dp2 i 0 = i)
               /\ forall j, j < 0 + (n + 1) -> j <= n -> get dp2 0 j = j).
  { apply (fold_range_invariant
             (fun k dp => shape m n dp
                          /\ (forall i, i <= m -> get dp i 0 = i)
                          /\ forall j, j < k -> j <= n -> get dp 0 j = j)).
    - split; [assumption |]. split; [| intros; lia].
      intros i Hi. apply Hc1; lia.
    - intros k dp Hk (Hs & Hc & Hr).
      split; [apply shape_set; [assumption | lia] |]. split.
      + intros i Hi. rewrite (@get_set _ _ _ _ _ _ _ _ Hs) by lia.
        destruct (Nat.eqb_spec i 0) as [-> | Hne];
          [destruct (Nat.eqb_spec 0 k) as [<- | Hnk] |]; simpl;
          try reflexivity; apply Hc; lia.
      + intros j Hj Hjn. rewrite (@get_set _ _ _ _ _ _ _ _ Hs) by lia.
        destruct (Nat.eqb_spec j k) as [-> | Hne]; simpl; [reflexivity |].
        apply Hr; lia. }
  destruct H2 as (Hs2 & Hc2 & Hr2).
  assert (H3 : filled a b dp2 1 1).
  { apply filled_start; try assumption. intros j Hj. apply Hr2; lia. }
  match goal with
  | |- get (fold_left ?f (seq 1 m) dp2) m n = _ =>
      assert (H4 : filled a b (fold_left f (seq 1 m) dp2) (1 + m) 1)
  end.
  { apply (fold_range_invariant (fun k dp => filled a b dp k 1));
      [exact H3 |].
    intros i dp Hi Hf. apply filled_next_row.
    apply (fold_range_invariant (fun k dp => filled a b dp i k));
      [exact Hf |].
    intros j dp' Hj Hf'. apply filled_cell; [lia | lia | exact Hf']. }
  destruct H4 as [_ H4]. apply H4; lia.
Qed.

End Recurrence.

(* ================================================================== *)
(** * Edit distance: the recurrence and edit scripts *)
(* ================================================================== *)

Section EditScripts.

Lemma min3_cases (x y z : nat) :
  min3 x y z = x \/ min3 x y z = y \/ min3 x y z = z.
Proof. unfold min3. lia. Qed.

Lemma min3_le (x y z : nat) :
  min3 x y z <= x /\ min3 x y z <= y /\ min3 x y z <= z.
Proof. unfold min3. lia. Qed.

Lemma edits_insert_all (b : str) : edits [] b (length b).
Proof. induction b; simpl; constructor; assumption. Qed.

Lemma edits_delete_all (a : str) : edits a [] (length a).
Proof. induction a; simpl; constructor; assumption. Qed.

(** The recurrence is reached by a script. *)
Lemma edits_lev_rec (a b : str) : edits a b (lev_rec a b).
Proof.
  revert b. induction a as [| x a IHa]; intros b.
  - apply edits_insert_all.
  - induction b as [| y b IHb].
    + rewrite lev_rec_nil_r. apply edits_delete_all.
    + rewrite lev_rec_cons.
      destruct (min3_cases (lev_rec a (y :: b) + 1) (lev_rec (x :: a) b + 1)
                  (lev_rec a b + (if Ascii.eqb x y then 0 else 1)))
        as [-> | [-> | ->]].
      * rewrite Nat.add_1_r. apply edits_del, IHa.
      * rewrite Nat.add_1_r. apply edits_ins, IHb.
      * destruct (Ascii.eqb_spec x y) as [-> | Hne].
        -- rewrite Nat.add_0_r. apply edits_keep, IHa.
        -- rewrite Nat.add_1_r. apply edits_sub, IHa.
Qed.

(** No script is cheaper than the recurrence. *)
Lemma lev_rec_least (a b : str) (n : nat) : edits a b n -> lev_rec a b <= n.
Proof.
  induction 1 as [| a b y n _ IH | a b x n _ IH | a b x n _ IH
                  | a b x y n _ IH].
  - simpl. lia.
  - destruct a as [| x a]; [simpl in *; lia |].
    rewrite lev_rec_cons.
    pose proof (min3_le (lev_rec a (y :: b) + 1) (lev_rec (x :: a) b + 1)
                  (lev_rec a b + (if Ascii.eqb x y then 0 else 1))).
    lia.
  - destruct b as [| y b]; [rewrite lev_rec_nil_r in *; simpl; lia |].
    rewrite lev_rec_cons.
    pose proof (min3_le (lev_rec a (y :: b) + 1) (lev_rec (x :: a) b + 1)
                  (lev_rec a b + (if Ascii.eqb x y then 0 else 1))).
    lia.
  - rewrite lev_rec_cons, Ascii.eqb_refl.
    pose proof (min3_le (lev_rec a (x :: b) + 1) (lev_rec (x :: a) b + 1)
                  (lev_rec a b + 0)).
    lia.
  - rewrite lev_rec_cons.
    pose proof (min3_le (lev_rec a (y :: b) + 1) (lev_rec (x :: a) b + 1)
                  (lev_rec a b + (if Ascii.eqb x y then 0 else 1))).
    destruct (Ascii.eqb x y); lia.
Qed.

Lemma edits_snoc_ins (a b : str) (y : ascii) (n : nat) :
  edits a b n -> edits a (b ++ [y]) (S n).
Proof.
  induction 1; simpl; try (constructor; assumption).
  apply edits_ins, edits_nil.
Qed.

Lemma edits_snoc_del (a b : str) (x : ascii) (n : nat) :
  edits a b n -> edits (a ++ [x]) b (S n).
Proof.
  induction 1; simpl; try (constructor; assumption).
  apply edits_del, edits_nil.
Qed.

Lemma edits_snoc_keep (a b : str) (x : ascii) (n : nat) :
  edits a b n -> edits (a ++ [x]) (b ++ [x]) n.
Proof.
  induction 1; simpl; try (constructor; assumption).
  apply edits_keep, edits_nil.
Qed.

Lemma edits_snoc_sub (a b : str) (x y : ascii) (n : nat) :
  edits a b n -> edits (a ++ [x]) (b ++ [y]) (S n).
Proof.
  induction 1; simpl; try (constructor; assumption).
  apply edits_sub, edits_nil.
Qed.

Lemma edits_rev (a b : str) (n : nat) :
  edits a b n -> edits (rev a) (rev b) n.
Proof.
  induction 1; simpl.
  - constructor.
  - now apply edits_snoc_ins.
  - now apply edits_snoc_del.
  - now apply edits_snoc_keep.
  - now apply edits_snoc_sub.
Qed.

Lemma lev_rec_rev (a b : str) : lev_rec (rev a) (rev b) = lev_rec a b.
Proof.
  apply Nat.le_antisymm.
  - apply lev_rec_least, edits_rev, edits_lev_rec.
  - rewrite <- (rev_involutive a), <- (rev_involutive b) at 1.
    apply lev_rec_least, edits_rev, edits_lev_rec.
Qed.

(** The table of [_levenshtein] holds the textbook distance. *)
Lemma levenshtein_is_lev_rec (a b : str) : _levenshtein a b = lev_rec a b.
Proof.
  rewrite levenshtein_table. unfold prefix_dist.
  rewrite !firstn_all. apply lev_rec_rev.
Qed.

Lemma edits_sym (a b : str) (n : nat) : edits a b n -> edits b a n.
Proof. induction 1; constructor; assumption. Qed.

Lemma lev_rec_sym (a b : str) : lev_rec a b = lev_rec b a.
Proof.
  apply Nat.le_antisymm; apply lev_rec_least, edits_sym, edits_lev_rec.
Qed.

Lemma edits_drop_target (a b' : str) (n : nat) :
  edits a b' n ->
  forall y b, b' = y :: b -> exists n', n' <= S n /\ edits a b n'.
Proof.
  induction 1 as [| a b0 y0 n H _ | a b0 x n H IH | a b0 x n H _
                  | a b0 x y0 n H _]; intros y b E.
  - discriminate.
  - injection E as -> ->. exists n. split; [lia | assumption].
  - destruct (IH y b E) as (n' & Hle & He).
    exists (S n'). split; [lia | now constructor].
  - injection E as -> ->. exists (S n). split; [lia | now constructor].
  - injection E as -> ->. exists (S n). split; [lia | now constructor].
Qed.

Lemma edits_trans_head (b' c' : str) (y z : ascii) (k cost : nat) :
  (cost = 0 -> y = z) ->
  (forall a n, edits a b' n -> exists r, r <= n + k /\ edits a c' r) ->
  forall a bb n, edits a bb n -> bb = y :: b' ->
    exists r, r <= n + k + cost /\ edits a (z :: c') r.
Proof.
  intros Hcost Hout.
  induction 1 as [| a b0 y0 n H _ | a b0 x n H IH | a b0 x n H _
                  | a b0 x y0 n H _]; intros E.
  - discriminate.
  - injection E as -> ->. destruct (Hout a n H) as (r & Hle & He).
    exists (S r). split; [lia | now constructor].
  - destruct (IH E) as (r & Hle & He).
    exists (S r). split; [lia | now constructor].
  - injection E as -> ->. destruct (Hout a n H) as (r & Hle & He).
    destruct cost as [| cost].
    + rewrite <- (Hcost eq_refl). exists r. split; [lia | now constructor].
    + exists (S r). split; [lia | now constructor].
  - injection E as -> ->. destruct (Hout a n H) as (r & Hle & He).
    exists (S r). split; [lia | now constructor].
Qed.

(** Scripts compose. *)
Lemma edits_trans (b c : str) (k : nat) :
  edits b c k ->
  forall a n, edits a b n -> exists r, r <= n + k /\ edits a c r.
Proof.
  induction 1 as [| b c z k H IH | b c y k H IH | b c y k H IH
                  | b c y z k H IH]; intros a n Hab.
  - exists n. split; [lia | assumption].
  - destruct (IH a n Hab) as (r & Hle & He).
    exists (S r). split; [lia | now constructor].
  - destruct (edits_drop_target Hab eq_refl) as (n' & Hn' & Hab').
    destruct (IH a n' Hab') as (r & Hle & He).
    exists r. split; [lia | assumption].
  - destruct (@edits_trans_head b c y y k 0 (fun _ => eq_refl) IH
                a (y :: b) n Hab eq_refl) as (r & Hle & He).
    exists r. split; [lia | assumption].
  - destruct (@edits_trans_head b c y z k 1 ltac:(discriminate) IH
                a (y :: b) n Hab eq_refl) as (r & Hle & He).
    exists r. split; [lia | assumption].
Qed.

Lemma lev_rec_triangle (a b c : str) :
  lev_rec a c <= lev_rec a b + lev_rec b c.
Proof.
  destruct (edits_trans (edits_lev_rec b c) (edits_lev_rec a b))
    as (r & Hle & He).
  apply lev_rec_least in He. lia.
Qed.

Lemma edits_zero (a b : str) (n : nat) : edits a b n -> n = 0 -> a = b.
Proof.
  induction 1; intros E; try discriminate; [reflexivity |].
  f_equal. auto.
Qed.

Lemma edits_refl (a : str) : edits a a 0.
Proof. induction a; constructor; assumption. Qed.

Lemma lev_rec_zero (a b : str) : lev_rec a b = 0 <-> a = b.
Proof.
  split.
  - intros H. apply (edits_zero (edits_lev_rec a b) H).
  - intros <-. pose proof (lev_rec_least (edits_refl a)). lia.
Qed.

End EditScripts.

(* ================================================================== *)
(** * The fuzzy lexicon matcher *)
(* ================================================================== *)

Section Matcher.

Variable token : str.
Variable max_dist : nat.

Lemma closest_step (seen : list str) (st : option str * dist) (x : str) :
  closest_state token max_dist seen st ->
  closest_state token max_dist (seen ++ [x])
    (let '(best, best_dist) := st in
     let d := _levenshtein token x in
     if (d <=? max_dist) && lt_dist d best_dist
     then (Some x, Fin d) else (best, best_dist)).
Proof.
  destruct st as [[c |] [| e]]; simpl; try contradiction;
    rewrite levenshtein_is_lev_rec.
  - (* a best entry is held *)
    intros [-> (Hle & p & q & -> & Hp & Hq)].
    destruct (Nat.leb_spec (lev_rec token x) max_dist) as [Hx | Hx];
      destruct (Nat.ltb_spec (lev_rec token x) (lev_rec token c)) as [Hlt | Hge];
      simpl.
    + split; [reflexivity |]. split; [assumption |].
      exists (p ++ c :: q), []. split; [reflexivity |].
      split; [| intros c' []].
      intros c' Hin. apply in_app_or in Hin.
      destruct Hin as [Hin | [<- | Hin]];
        [specialize (Hp c' Hin) | | specialize (Hq c' Hin)]; lia.
    + split; [reflexivity |]. split; [assumption |].
      exists p, (q ++ [x]). split; [now rewrite <- app_assoc |].
      split; [assumption |].
      intros c' Hin. apply in_app_or in Hin.
      destruct Hin as [Hin | [<- | []]]; [now apply Hq | assumption].
    + lia.
    + split; [reflexivity |]. split; [assumption |].
      exists p, (q ++ [x]). split; [now rewrite <- app_assoc |].
      split; [assumption |].
      intros c' Hin. apply in_app_or in Hin.
      destruct Hin as [Hin | [<- | []]]; [now apply Hq | lia].
  - (* nothing found so far *)
    intros Hall.
    destruct (Nat.leb_spec (lev_rec token x) max_dist) as [Hx | Hx]; simpl.
    + split; [reflexivity |]. split; [assumption |].
      exists seen, []. split; [reflexivity |].
      split; [| intros c' []].
      intros c' Hin. specialize (Hall c' Hin). lia.
    + intros c Hin. apply in_app_or in Hin.
      destruct Hin as [Hin | [<- | []]]; [now apply Hall | assumption].
Qed.

Lemma closest_loop (l seen : list str) (st : option str * dist) :
  closest_state token max_dist seen st ->
  closest_state token max_dist (seen ++ l)
    (fold_left (fun (st : option str * dist) c =>
         let '(best, best_dist) := st in
         let d := _levenshtein token c in
         if (d <=? max_dist) && lt_dist d best_dist
         then (Some c, Fin d) else (best, best_dist))
       l st).
Proof.
  revert seen st. induction l as [| x l IH]; intros seen st H; simpl.
  - now rewrite app_nil_r.
  - replace (seen ++ x :: l) with ((seen ++ [x]) ++ l)
      by now rewrite <- app_assoc.
    apply IH. now apply closest_step.
Qed.

(** The result of [_closest_match]. *)
Lemma closest_match_result (candidates : list str) :
  match _closest_match token candidates max_dist with
  | None => forall c, In c candidates -> max_dist < lev_rec token c
  | Some c => first_closest token candidates max_dist c
  end.
Proof.
  unfold _closest_match.
  pose proof (@closest_loop candidates [] (None, Inf)) as H.
  simpl in H. specialize (H (fun c (F : False) => match F with end)).
  destruct (fold_left _ candidates (None, Inf)) as [[c |] [| e]];
    simpl in *; try contradiction; [apply H | exact H].
Qed.

End Matcher.

Section MatchToken.

Lemma mem_In (x : str) (l : list str) : mem x l = true <-> In x l.
Proof.
  unfold mem. rewrite existsb_exists. split.
  - intros (y & Hin & E). apply str_eq_lit in E. now subst.
  - intros H. exists x. split; [assumption | now apply str_eq_lit].
Qed.

Lemma separated_spec (lexicon : list str) :
  separated lexicon = true ->
  forall a b, In a lexicon -> In b lexicon ->
    a <> [] /\ (a = b \/ 3 <= lev_rec a b).
Proof.
  unfold separated. rewrite forallb_forall. intros H a b Ha Hb.
  specialize (H a Ha). apply andb_true_iff in H. destruct H as [Hne H].
  split.
  - intros ->. discriminate.
  - rewrite forallb_forall in H. specialize (H b Hb).
    apply orb_true_iff in H. destruct H as [H | H].
    + left. now apply str_eq_lit.
    + right. rewrite levenshtein_is_lev_rec in H. now apply Nat.leb_le.
Qed.

Lemma system_lexicon_separated (lexicon : list str) :
  system_lexicon lexicon -> separated lexicon = true.
Proof. intros [-> | [-> | ->]]; vm_compute; reflexivity. Qed.

(** In a separated lexicon a token within one edit of an entry matches
    that entry. *)
Lemma match_token_near (token : str) (lexicon : list str) (w : str) :
  separated lexicon = true -> In w lexicon -> lev_rec token w <= 1 ->
  match_token token lexicon = Some w.
Proof.
  intros Hsep Hw Hd. unfold match_token.
  destruct (mem token lexicon) eqn:Em.
  - apply mem_In in Em.
    destruct (separated_spec _ Hsep token w Em Hw) as [_ [-> | H]];
      [reflexivity | lia].
  - pose proof (closest_match_result token 1 lexicon) as H.
    destruct (_closest_match token lexicon 1) as [c |].
    + destruct H as (Hc & p & q & E & Hp & Hq).
      assert (Hin : In c lexicon) by (rewrite E; apply in_elt).
      destruct (separated_spec _ Hsep c w Hin Hw) as [_ [-> | H]];
        [reflexivity |].
      pose proof (lev_rec_triangle c token w) as Ht.
      rewrite (lev_rec_sym c token) in Ht. lia.
    + specialize (H w Hw). lia.
Qed.

Lemma match_token_far (token : str) (lexicon : list str) :
  (forall c, In c lexicon -> 2 <= lev_rec token c) ->
  match_token token lexicon = None.
Proof.
  intros Hfar. unfold match_token.
  destruct (mem token lexicon) eqn:Em.
  - apply mem_In in Em. specialize (Hfar token Em).
    pose proof (proj2 (lev_rec_zero token token) eq_refl). lia.
  - pose proof (closest_match_result token 1 lexicon) as H.
    destruct (_closest_match token lexicon 1) as [c |]; [| reflexivity].
    destruct H as (Hc & p & q & E & _).
    assert (Hin : In c lexicon) by (rewrite E; apply in_elt).
    specialize (Hfar c Hin). lia.
Qed.

End MatchToken.

(** C6. For every token and lexicon: a token that is in the lexicon
    matches itself, at distance 0; otherwise the match is the entry
    nearest to the token in edit distance among those within distance 1,
    the first such entry in the order of the lexicon, and there is no
    match when every entry is farther than 1. The distance the code
    computes in its table is the edit distance: the least number of
    single-character insertions, deletions and substitutions. So, in the
    detector's lexicons, a token one edit away from an entry is matched
    to that entry and yields the hit the entry itself yields, and a token
    at least two edits away from every entry yields no hit. *)
Theorem fuzzy_matcher_first_closest_within_one :
  (forall a b : str,
      _levenshtein a b = lev_rec a b
      /\ edits a b (_levenshtein a b)
      /\ forall n, edits a b n -> _levenshtein a b <= n)
  /\ (forall (token : str) (lexicon : list str),
         In token lexicon ->
         match_token token lexicon = Some token
         /\ _levenshtein token token = 0)
  /\ (forall (token : str) (lexicon : list str),
         ~ In token lexicon ->
         match_token token lexicon = _closest_match token lexicon 1
         /\ match match_token token lexicon with
            | None => forall c, In c lexicon -> 1 < _levenshtein token c
            | Some c =>
                _levenshtein token c <= 1
                /\ exists p q : list str,
                     lexicon = p ++ c :: q
                     /\ (forall c', In c' p ->
                           _levenshtein token c < _levenshtein token c')
                     /\ (forall c', In c' q ->
                           _levenshtein token c <= _levenshtein token c')
            end)
  /\ (forall (token : str) (lexicon : list str) (w : str) (i : Z),
         system_lexicon lexicon -> In w lexicon ->
         _levenshtein token w <= 1 ->
         match_token token lexicon = Some w
         /\ match_token w lexicon = Some w
         /\ hits_of lexicon [(i, token)] = [{| word := w; idx := i |}]
         /\ hits_of lexicon [(i, w)] = [{| word := w; idx := i |}])
  /\ (forall (token : str) (lexicon : list str) (i : Z),
         (forall c, In c lexicon -> 2 <= _levenshtein token c) ->
         match_token token lexicon = None
         /\ hits_of lexicon [(i, token)] = [])
  /\ (_levenshtein (lit "hsck") (lit "hack") = 1
      /\ match_token (lit "hsck") RISKY_ACTIONS = Some (lit "hack")
      /\ match_token (lit "hack") RISKY_ACTIONS = Some (lit "hack")
      /\ _levenshtein (lit "hsxk") (lit "hack") = 2
      /\ match_token (lit "hsxk") RISKY_ACTIONS = None).
Proof.
  split; [| split; [| split; [| split; [| split]]]].
  - intros a b. rewrite levenshtein_is_lev_rec.
    split; [reflexivity |]. split; [apply edits_lev_rec |].
    intros n. apply lev_rec_least.
  - intros token lexicon Hin. split.
    + unfold match_token. apply mem_In in Hin. now rewrite Hin.
    + rewrite levenshtein_is_lev_rec. now apply lev_rec_zero.
  - intros token lexicon Hnin.
    assert (Em : mem token lexicon = false).
    { destruct (mem token lexicon) eqn:E; [| reflexivity].
      apply mem_In in E. contradiction. }
    unfold match_token. rewrite Em. split; [reflexivity |].
    pose proof (closest_match_result token 1 lexicon) as H.
    destruct (_closest_match token lexicon 1) as [c |].
    + destruct H as (Hc & p & q & E & Hp & Hq).
      rewrite levenshtein_is_lev_rec. split; [assumption |].
      exists p, q. split; [assumption |].
      split; intros c' Hc'; rewrite !levenshtein_is_lev_rec; auto.
    + intros c Hc. rewrite levenshtein_is_lev_rec. now apply H.
  - intros token lexicon w i Hsys Hw Hd.
    rewrite levenshtein_is_lev_rec in Hd.
    pose proof (system_lexicon_separated Hsys) as Hsep.
    assert (Hm : match_token token lexicon = Some w)
      by now apply match_token_near.
    assert (Hmw : match_token w lexicon = Some w).
    { apply match_token_near; try assumption.
      pose proof (proj2 (lev_rec_zero w w) eq_refl). lia. }
    destruct (separated_spec _ Hsep w w Hw Hw) as [Hne _].
    repeat split; try assumption;
      unfold hits_of; simpl; rewrite ?Hm, ?Hmw;
      destruct w; [contradiction | reflexivity | contradiction | reflexivity].
  - intros token lexicon i Hfar.
    assert (Hm : match_token token lexicon = None).
    { apply match_token_far. intros c Hc.
      rewrite <- levenshtein_is_lev_rec. now apply Hfar. }
    split; [assumption |]. unfold hits_of. simpl. now rewrite Hm.
  - repeat split; vm_compute; reflexivity.
Qed.

(* ================================================================== *)
(** * Normalisation and tokens *)
(* ================================================================== *)

Section Characters.

Lemma word_not_space (c : ascii) : is_word c = true -> is_space c = false.
Proof. each_char c; vm_compute; congruence. Qed.

Lemma is_space_space : is_space space = true.
Proof. reflexivity. Qed.

Lemma lower_char_idem (c : ascii) : lower_char (lower_char c) = lower_char c.
Proof. each_char c; reflexivity. Qed.

Lemma is_space_lower_char (c : ascii) : is_space (lower_char c) = is_space c.
Proof. each_char c; reflexivity. Qed.

Lemma is_word_lower_char (c : ascii) : is_word (lower_char c) = is_word c.
Proof. each_char c; reflexivity. Qed.

Lemma upper_char_lower (c : ascii) (u : str) :
  c <> sharp_s -> upper_char c = Some u -> lower u = [lower_char c].
Proof.
  each_char c; intros Hne H; vm_compute in H;
    try discriminate; try (exfalso; apply Hne; reflexivity);
    injection H as <-; reflexivity.
Qed.

End Characters.

Section Strip.

Lemma lstrip_app_blank (ws s : str) : blank_str ws -> lstrip (ws ++ s) = lstrip s.
Proof.
  unfold blank_str. induction ws as [| c ws IH]; simpl; [reflexivity |].
  intros H. apply andb_true_iff in H. destruct H as [Hc Hws].
  rewrite Hc. now apply IH.
Qed.

(** [lstrip] removes a blank prefix and nothing else. *)
Lemma lstrip_split (s : str) :
  exists ws, blank_str ws /\ s = ws ++ lstrip s.
Proof.
  induction s as [| c s (ws & Hws & E)]; simpl.
  - exists []. split; reflexivity.
  - destruct (is_space c) eqn:Ec.
    + exists (c :: ws). split.
      * unfold blank_str. simpl. now rewrite Ec.
      * simpl. now rewrite <- E.
    + exists []. split; reflexivity.
Qed.

Lemma lstrip_idem (s : str) : lstrip (lstrip s) = lstrip s.
Proof.
  induction s as [| c s IH]; simpl; [reflexivity |].
  destruct (is_space c) eqn:Ec; [assumption |]. simpl. now rewrite Ec.
Qed.

Lemma blank_rev (ws : str) : blank_str ws -> blank_str (rev ws).
Proof.
  unfold blank_str. rewrite !forallb_forall. intros H c Hc.
  apply H. now apply in_rev.
Qed.

Lemma rstrip_split (s : str) :
  exists ws, blank_str ws /\ s = rstrip s ++ ws.
Proof.
  destruct (lstrip_split (rev s)) as (ws & Hws & E).
  exists (rev ws). split; [now apply blank_rev |].
  unfold rstrip. rewrite <- rev_app_distr, <- E. now rewrite rev_involutive.
Qed.

Lemma rstrip_app_blank (s ws : str) : blank_str ws -> rstrip (s ++ ws) = rstrip s.
Proof.
  intros H. unfold rstrip. rewrite rev_app_distr.
  now rewrite lstrip_app_blank by now apply blank_rev.
Qed.

Lemma rstrip_idem (s : str) : rstrip (rstrip s) = rstrip s.
Proof.
  unfold rstrip. now rewrite rev_involutive, lstrip_idem.
Qed.

Lemma lstrip_nonblank_head (s : str) :
  match lstrip s with
  | [] => True
  | c :: _ => is_space c = false
  end.
Proof.
  induction s as [| c s IH]; simpl; [exact I |].
  destruct (is_space c) eqn:Ec; [assumption | exact Ec].
Qed.

(** [rstrip] keeps the first character of a string that starts with a
    character other than white space. *)
Lemma rstrip_keeps_head (c : ascii) (t : str) :
  is_space c = false -> exists t', rstrip (c :: t) = c :: t'.
Proof.
  intros Hc. destruct (rstrip_split (c :: t)) as (ws & Hws & E).
  destruct (rstrip (c :: t)) as [| c' t'] eqn:Er.
  - simpl in E. subst ws. unfold blank_str in Hws. simpl in Hws.
    rewrite Hc in Hws. discriminate.
  - simpl in E. injection E as <- _. now exists t'.
Qed.

Lemma strip_idem (s : str) : strip (strip s) = strip s.
Proof.
  unfold strip.
  pose proof (lstrip_nonblank_head s) as H.
  destruct (lstrip s) as [| c t] eqn:E; [reflexivity |].
  destruct (@rstrip_keeps_head c t H) as (t' & Et).
  rewrite Et. simpl. rewrite H, <- Et. apply rstrip_idem.
Qed.

Lemma strip_pad (ws1 s ws2 : str) :
  blank_str ws1 -> blank_str ws2 -> strip (ws1 ++ s ++ ws2) = strip s.
Proof.
  intros H1 H2. unfold strip. rewrite lstrip_app_blank by assumption.
  destruct (lstrip_split s) as (ws & Hws & E).
  destruct (lstrip s) as [| c t] eqn:El.
  - rewrite app_nil_r in E. subst s.
    assert (Hb : blank_str (ws ++ ws2)).
    { unfold blank_str in *. rewrite forallb_app. now rewrite Hws, H2. }
    rewrite <- (app_nil_r (ws ++ ws2)), lstrip_app_blank by assumption.
    reflexivity.
  - rewrite E at 1. rewrite <- app_assoc, lstrip_app_blank by assumption.
    change ((c :: t) ++ ws2) with (c :: t ++ ws2). simpl.
    pose proof (lstrip_nonblank_head s) as Hh. rewrite El in Hh. rewrite Hh.
    change (c :: t ++ ws2) with ((c :: t) ++ ws2).
    now apply rstrip_app_blank.
Qed.

Lemma lstrip_lower (s : str) : lstrip (lower s) = lower (lstrip s).
Proof.
  induction s as [| c s IH]; simpl; [reflexivity |].
  rewrite is_space_lower_char. destruct (is_space c); [assumption | reflexivity].
Qed.

Lemma rstrip_lower (s : str) : rstrip (lower s) = lower (rstrip s).
Proof.
  unfold rstrip.
  replace (rev (lower s)) with (lower (rev s))
    by (unfold lower; apply map_rev).
  rewrite lstrip_lower. unfold lower. symmetry. apply map_rev.
Qed.

Lemma strip_lower (s : str) : strip (lower s) = lower (strip s).
Proof. unfold strip. now rewrite lstrip_lower, rstrip_lower. Qed.

Lemma lower_idem (s : str) : lower (lower s) = lower s.
Proof.
  unfold lower. rewrite map_map. apply map_ext. apply lower_char_idem.
Qed.

End Strip.

Section Tokens.

Lemma split_from_blank (cur ws : str) :
  blank_str ws ->
  split_from cur ws = match cur with [] => [] | _ => [cur] end.
Proof.
  unfold blank_str. revert cur. induction ws as [| c ws IH]; intros cur H.
  - reflexivity.
  - simpl in *. apply andb_true_iff in H. destruct H as [Hc Hws].
    rewrite Hc, (IH [] Hws). now destruct cur.
Qed.

Lemma split_from_app_blank (s ws cur : str) :
  blank_str ws -> split_from cur (s ++ ws) = split_from cur s.
Proof.
  intros H. revert cur. induction s as [| c s IH]; intros cur; simpl.
  - now apply split_from_blank.
  - destruct (is_space c); [| apply IH].
    rewrite IH. reflexivity.
Qed.

Lemma split_lstrip (s : str) : split (lstrip s) = split s.
Proof.
  unfold split. induction s as [| c s IH]; simpl; [reflexivity |].
  destruct (is_space c) eqn:Ec; [assumption |].
  simpl. now rewrite Ec.
Qed.

Lemma split_strip (s : str) : split (strip s) = split s.
Proof.
  unfold strip.
  destruct (rstrip_split (lstrip s)) as (ws & Hws & E).
  transitivity (split (lstrip s)); [| apply split_lstrip].
  set (r := rstrip (lstrip s)) in *. rewrite E.
  unfold split. now rewrite split_from_app_blank.
Qed.

Lemma split_sub_space_runs_from (s : str) :
  (forall cur, split_from cur (sub_space_runs_from false s) = split_from cur s)
  /\ split_from [] (sub_space_runs_from true s) = split_from [] s.
Proof.
  induction s as [| c s [IH1 IH2]]; simpl; [split; reflexivity |].
  destruct (is_space c) eqn:Ec; simpl.
  - split; [| assumption].
    intros cur. now rewrite IH2.
  - rewrite Ec. split; [intros cur |]; apply IH1.
Qed.

Lemma split_sub_space_runs (s : str) : split (sub_space_runs s) = split s.
Proof. apply split_sub_space_runs_from. Qed.

Lemma split_sub_non_word (s cur : str) :
  split_from cur (sub_non_word s) = word_runs_from cur s.
Proof.
  revert cur. induction s as [| c s IH]; intros cur; simpl; [reflexivity |].
  destruct (is_word c) eqn:Ew; simpl.
  - rewrite (word_not_space c Ew). apply IH.
  - destruct (is_space c) eqn:Es; simpl.
    + rewrite Es, IH. reflexivity.
    + rewrite ?is_space_space, IH. reflexivity.
Qed.

Lemma word_runs_from_blank (cur ws : str) :
  blank_str ws ->
  word_runs_from cur ws = match cur with [] => [] | _ => [cur] end.
Proof.
  unfold blank_str. revert cur. induction ws as [| c ws IH]; intros cur H.
  - reflexivity.
  - simpl in *. apply andb_true_iff in H. destruct H as [Hc Hws].
    destruct (is_word c) eqn:Ew.
    + rewrite (word_not_space c Ew) in Hc. discriminate.
    + rewrite (IH [] Hws). now destruct cur.
Qed.

Lemma word_runs_from_app_blank (s ws cur : str) :
  blank_str ws -> word_runs_from cur (s ++ ws) = word_runs_from cur s.
Proof.
  intros H. revert cur. induction s as [| c s IH]; intros cur; simpl.
  - now apply word_runs_from_blank.
  - destruct (is_word c); [apply IH |]. rewrite IH. reflexivity.
Qed.

Lemma word_runs_lstrip (s : str) : word_runs (lstrip s) = word_runs s.
Proof.
  unfold word_runs. induction s as [| c s IH]; simpl; [reflexivity |].
  destruct (is_space c) eqn:Ec; [| reflexivity].
  destruct (is_word c) eqn:Ew; [| assumption].
  rewrite (word_not_space c Ew) in Ec. discriminate.
Qed.

Lemma word_runs_strip (s : str) : word_runs (strip s) = word_runs s.
Proof.
  unfold strip.
  destruct (rstrip_split (lstrip s)) as (ws & Hws & E).
  transitivity (word_runs (lstrip s)); [| apply word_runs_lstrip].
  set (r := rstrip (lstrip s)) in *. rewrite E.
  unfold word_runs. now rewrite word_runs_from_app_blank.
Qed.

(** The tokens of a prompt are the runs of word characters of its
    lower-case form. *)
Lemma tokens_word_runs (prompt : str) :
  split (normalize prompt) = word_runs (lower prompt).
Proof.
  unfold normalize. rewrite split_strip, split_sub_space_runs.
  apply split_sub_non_word.
Qed.

Lemma word_runs_from_chars (s cur tok : str) :
  In tok (word_runs_from cur s) ->
  tok <> []
  /\ forall c, In c tok -> In c cur \/ (In c s /\ is_word c = true).
Proof.
  revert cur. induction s as [| c s IH]; intros cur; simpl.
  - destruct cur as [| x cur]; [intros [] |].
    intros [<- | []]. split; [discriminate | auto].
  - destruct (is_word c) eqn:Ew.
    + intros H. destruct (IH _ H) as [Hne Hc]. split; [assumption |].
      intros c' Hin. destruct (Hc c' Hin) as [Hcur | [Hs Hw]]; [| auto].
      apply in_app_or in Hcur. destruct Hcur as [Hcur | [<- | []]]; auto.
    + assert (Hrest : In tok (word_runs_from [] s) ->
                      tok <> []
                      /\ forall c', In c' tok ->
                           In c' cur \/ ((c = c' \/ In c' s) /\ is_word c' = true)).
      { intros H. destruct (IH _ H) as [Hne Hc]. split; [assumption |].
        intros c' Hin. destruct (Hc c' Hin) as [[] | [Hs Hw]]. auto. }
      destruct cur as [| x cur]; [exact Hrest |].
      intros [<- | H]; [| now apply Hrest].
      split; [discriminate | auto].
Qed.

End Tokens.

Section Joined.

Lemma split_from_nonempty (s cur : str) : cur <> [] -> split_from cur s <> [].
Proof.
  revert cur. induction s as [| c s IH]; intros cur H; simpl.
  - destruct cur; [contradiction | discriminate].
  - destruct (is_space c).
    + destruct cur; [contradiction | discriminate].
    + apply IH. now destruct cur.
Qed.

Lemma split_nil_ends_with_space (t : str) :
  split_from [] t = [] -> t <> [] -> ends_with_space t = true.
Proof.
  induction t as [| c t IH]; intros H Hne; [contradiction |].
  simpl in H. destruct (is_space c) eqn:Ec.
  - simpl. destruct t as [| c' t']; [assumption |].
    apply IH; [assumption | discriminate].
  - exfalso. revert H. apply split_from_nonempty. discriminate.
Qed.

Lemma ends_with_space_cons (c : ascii) (t : str) :
  t <> [] -> ends_with_space (c :: t) = ends_with_space t.
Proof. destruct t; [contradiction | reflexivity]. Qed.

Lemma split_cons_nonempty (t : str) (r : str) (rs : list str) :
  split_from [] t = r :: rs -> t <> [].
Proof. intros H ->. discriminate. Qed.

(** The text after [re.sub(r"\s+", " ", s)], from inside a word and from
    inside a run of white space. *)
Lemma sub_space_runs_join (s : str) :
  (forall cur, cur <> [] ->
     cur ++ sub_space_runs_from false s
     = join sp (split_from cur s)
       ++ (if ends_with_space s then sp else []))
  /\ sub_space_runs_from true s
     = join sp (split_from [] s)
       ++ match split_from [] s with
          | [] => []
          | _ :: _ => if ends_with_space s then sp else []
          end.
Proof.
  induction s as [| c t [IHA IHB]].
  - split; [| reflexivity].
    intros cur H. destruct cur; [contradiction |]. simpl.
    now rewrite !app_nil_r.
  - split.
    + intros cur Hcur.
      cbn [sub_space_runs_from split_from].
      destruct (is_space c) eqn:Ec.
      * rewrite IHB.
        assert (Hs : split_from cur (c :: t) = cur :: split_from [] t).
        { simpl. rewrite Ec. destruct cur; [contradiction | reflexivity]. }
        destruct cur as [| x cur]; [contradiction |].
        destruct (split_from [] t) as [| r rs] eqn:Er.
        -- assert (He : ends_with_space (c :: t) = true).
           { destruct t as [| c' t']; [exact Ec |].
             rewrite ends_with_space_cons by discriminate.
             apply split_nil_ends_with_space; [assumption | discriminate]. }
           rewrite He. reflexivity.
        -- rewrite (ends_with_space_cons c (@split_cons_nonempty t r rs Er)).
           cbn [join]. unfold sp. rewrite <- !app_assoc. reflexivity.
      * replace (cur ++ c :: sub_space_runs_from false t)
          with ((cur ++ [c]) ++ sub_space_runs_from false t)
          by now rewrite <- app_assoc.
        rewrite IHA by now destruct cur.
        f_equal. destruct t as [| c' t']; [simpl; now rewrite Ec |].
        reflexivity.
    + cbn [sub_space_runs_from split_from].
      destruct (is_space c) eqn:Ec.
      * rewrite IHB. f_equal.
        destruct (split_from [] t) as [| r rs] eqn:Er; [reflexivity |].
        now rewrite (ends_with_space_cons c (@split_cons_nonempty t r rs Er)).
      * change (c :: sub_space_runs_from false t)
          with ([c] ++ sub_space_runs_from false t).
        rewrite IHA by discriminate. cbn [app]. f_equal.
        destruct (split_from [c] t) as [| r rs] eqn:Er.
        -- exfalso. revert Er. apply split_from_nonempty. discriminate.
        -- destruct t as [| c' t']; [simpl; now rewrite Ec |].
           reflexivity.
Qed.

Lemma blank_sp : blank_str sp.
Proof. reflexivity. Qed.

Lemma blank_trail (b : bool) : blank_str (if b then sp else []).
Proof. destruct b; reflexivity. Qed.

Lemma sub_space_runs_padded (s : str) :
  exists lead trail : str,
    blank_str lead /\ blank_str trail
    /\ sub_space_runs s = lead ++ join sp (split s) ++ trail.
Proof.
  unfold sub_space_runs, split. destruct s as [| c t].
  - exists [], []. repeat split; reflexivity.
  - cbn [sub_space_runs_from split_from].
    destruct (sub_space_runs_join t) as [HA HB].
    destruct (is_space c) eqn:Ec.
    + rewrite HB. exists sp. eexists. split; [apply blank_sp |].
      split; [| reflexivity].
      destruct (split_from [] t); [reflexivity | apply blank_trail].
    + change (c :: sub_space_runs_from false t)
        with ([c] ++ sub_space_runs_from false t).
      rewrite HA by discriminate.
      exists []. eexists. split; [reflexivity |].
      split; [| reflexivity]. apply blank_trail.
Qed.

Lemma headed_app (x z : str) : headed x -> headed (x ++ z).
Proof. destruct x; [contradiction | trivial]. Qed.

Lemma headed_lstrip (x : str) : headed x -> lstrip x = x.
Proof. destruct x as [| c x]; [contradiction |]. simpl. now intros ->. Qed.

Lemma solid_headed (w : str) : solid w -> headed w /\ headed (rev w).
Proof.
  intros [Hne Hc]. split.
  - destruct w as [| c w]; [contradiction |]. apply Hc. now left.
  - destruct (rev w) as [| c r] eqn:Er.
    + apply (f_equal (@rev ascii)) in Er. rewrite rev_involutive in Er.
      contradiction.
    + apply Hc. apply in_rev. rewrite Er. now left.
Qed.

Lemma join_headed (toks : list str) :
  Forall solid toks -> toks <> [] ->
  headed (join sp toks) /\ headed (rev (join sp toks)).
Proof.
  induction 1 as [| w toks Hw Hall IH]; intros Hne; [contradiction |].
  destruct (solid_headed Hw) as [Hh Hr].
  destruct toks as [| w' toks]; [now split |].
  cbn [join]. split; [now apply headed_app |].
  rewrite !rev_app_distr, <- app_assoc. apply headed_app.
  apply IH. discriminate.
Qed.

Lemma strip_join (toks : list str) :
  Forall solid toks -> strip (join sp toks) = join sp toks.
Proof.
  intros H. destruct toks as [| w toks]; [reflexivity |].
  destruct (join_headed H) as [Hh Hr]; [discriminate |].
  unfold strip, rstrip.
  now rewrite (headed_lstrip _ Hh), (headed_lstrip _ Hr), rev_involutive.
Qed.

Lemma split_from_solid (s cur tok : str) :
  (forall c, In c cur -> is_space c = false) ->
  In tok (split_from cur s) -> solid tok.
Proof.
  revert cur. induction s as [| c s IH]; intros cur Hcur; simpl.
  - destruct cur as [| x cur]; [intros [] |].
    intros [<- | []]. split; [discriminate | assumption].
  - destruct (is_space c) eqn:Ec.
    + assert (Hrest : In tok (split_from [] s) -> solid tok).
      { apply IH. intros c' []. }
      destruct cur as [| x cur]; [exact Hrest |].
      intros [<- | H]; [| now apply Hrest].
      split; [discriminate | assumption].
    + apply IH. intros c' Hin. apply in_app_or in Hin.
      destruct Hin as [Hin | [<- | []]]; [now apply Hcur | assumption].
Qed.

(** White space collapsed and trimmed: the words, one space apart. *)
Lemma strip_sub_space_runs (s : str) :
  strip (sub_space_runs s) = join sp (split s).
Proof.
  destruct (sub_space_runs_padded s) as (lead & trail & Hl & Ht & ->).
  rewrite strip_pad by assumption.
  apply strip_join. apply Forall_forall. intros tok Hin.
  apply (@split_from_solid s [] tok); [intros c [] | exact Hin].
Qed.

Lemma normalize_join (prompt : str) :
  normalize prompt = join [space] (word_runs (lower prompt)).
Proof.
  unfold normalize. rewrite strip_sub_space_runs.
  unfold split. now rewrite split_sub_non_word.
Qed.

End Joined.

Section NormalisationClaims.

Lemma in_join (sep : str) (l : list str) (c : ascii) :
  In c (join sep l) -> In c sep \/ exists tok, In tok l /\ In c tok.
Proof.
  induction l as [| x l IH]; [intros [] |].
  destruct l as [| y l].
  - simpl. intros H. right. exists x. auto.
  - cbn [join]. intros H. apply in_app_or in H.
    destruct H as [H | H]; [right; exists x; simpl; auto |].
    apply in_app_or in H. destruct H as [H | H]; [now left |].
    destruct (IH H) as [Hs | (tok & Ht & Hc)]; [now left |].
    right. exists tok. split; [now right | assumption].
Qed.

Lemma char_at_map (f : ascii -> ascii) (s : str) (i : nat) :
  i < length s -> char_at (map f s) i = f (char_at s i).
Proof.
  unfold char_at. revert i. induction s as [| c s IH]; intros i H;
    simpl in H; [lia |].
  destruct i as [| i]; [reflexivity |]. simpl. apply IH. lia.
Qed.

(** C7, as the code has it. The tokens of a prompt are the maximal runs
    of word characters (letters, digits and other numeric characters,
    and the underscore) of its lower-case form, in order; the normalised
    text is these tokens one space apart, so it has no white space at
    either end and no white space but single spaces; every token is
    non-empty and every character of a token is a lower-case-stable word
    character. Trimming the prompt first changes nothing. The
    replacement keeps word characters and white space and turns every
    other character into a space. *)
Theorem tokens_are_runs_of_word_characters :
  forall prompt : str,
    let normalized := normalize (strip prompt) in
    let tokens := split normalized in
    tokens = word_runs (lower prompt)
    /\ normalized = join [space] tokens
    /\ normalize prompt = normalized
    /\ (forall c, In c normalized -> is_word c = true \/ c = space)
    /\ (forall tok, In tok tokens ->
          tok <> []
          /\ forall c, In c tok ->
               (is_alpha c || is_numeric c || Ascii.eqb c underscore) = true
               /\ is_space c = false
               /\ lower_char c = c)
    /\ length (sub_non_word prompt) = length prompt
    /\ (forall i, i < length prompt ->
          char_at (sub_non_word prompt) i
          = if is_word (char_at prompt i) || is_space (char_at prompt i)
            then char_at prompt i else space).
Proof.
  intros prompt. cbv zeta.
  assert (Htok : split (normalize (strip prompt)) = word_runs (lower prompt)).
  { rewrite tokens_word_runs, <- strip_lower. apply word_runs_strip. }
  assert (Hchars : forall tok, In tok (word_runs (lower prompt)) ->
            tok <> []
            /\ forall c, In c tok ->
                 is_word c = true /\ is_space c = false /\ lower_char c = c).
  { intros tok Hin. destruct (word_runs_from_chars _ _ _ Hin) as [Hne Hc].
    split; [assumption |]. intros c Hct.
    destruct (Hc c Hct) as [[] | [Hl Hw]].
    split; [assumption |]. split; [now apply word_not_space |].
    unfold lower in Hl. apply in_map_iff in Hl. destruct Hl as (c0 & <- & _).
    apply lower_char_idem. }
  assert (Hjoin : normalize (strip prompt)
                  = join [space] (word_runs (lower prompt))).
  { rewrite normalize_join, <- strip_lower. now rewrite word_runs_strip. }
  rewrite Htok.
  split; [reflexivity |]. split; [exact Hjoin |].
  split; [now rewrite Hjoin, normalize_join |].
  split; [| split; [exact Hchars | split]].
  - intros c Hc. rewrite Hjoin in Hc.
    destruct (in_join _ _ _ Hc) as [[<- | []] | (tok & Ht & Hct)];
      [now right | left].
    now apply (proj2 (Hchars tok Ht) c Hct).
  - unfold sub_non_word. apply length_map.
  - intros i Hi. unfold sub_non_word. rewrite char_at_map by assumption.
    now destruct (is_word _ || is_space _).
Qed.

(** C7, as stated, fails: the underscore is kept by the replacement and
    reaches a token, and it is neither a letter, nor a digit, nor white
    space. *)
Lemma underscore_survives_into_token :
  let prompt := lit "drop_table users" in
  let tokens := split (normalize (strip prompt)) in
  sub_non_word (lower (strip prompt)) = prompt
  /\ tokens = [lit "drop_table"; lit "users"]
  /\ exists tok c,
       In tok tokens /\ In c tok
       /\ c = underscore
       /\ is_alpha c = false /\ is_numeric c = false /\ is_space c = false.
Proof.
  cbv zeta. split; [vm_compute; reflexivity |].
  split; [vm_compute; reflexivity |].
  exists (lit "drop_table"), underscore.
  repeat split; vm_compute; auto 10.
Qed.

End NormalisationClaims.

(* ================================================================== *)
(** * Letter case and surrounding white space *)
(* ================================================================== *)

Section CaseAndPadding.

Lemma normalize_lower_ext (p q : str) :
  lower p = lower q -> normalize p = normalize q.
Proof. unfold normalize. now intros ->. Qed.

Lemma keyword_score_lower_ext (p q : str) :
  lower p = lower q -> _keyword_score p = _keyword_score q.
Proof.
  intros H. rewrite !keyword_score_unfold.
  now rewrite (normalize_lower_ext _ _ H).
Qed.

Lemma predict_prompt_preprocess {X : Type}
    (model : option (Model X)) (vectorizer : option (Vectorizer X))
    (p q : option str) :
  _preprocess p = _preprocess q ->
  predict_prompt model vectorizer p = predict_prompt model vectorizer q.
Proof.
  intros H. unfold predict_prompt, predict_try.
  destruct model, vectorizer; try reflexivity. now rewrite H.
Qed.

Lemma analyze_prompt_ext (predict : option str -> outcome MLResult)
    (p q : option str) :
  _keyword_score (strip (or_empty p)) = _keyword_score (strip (or_empty q)) ->
  predict (Some (strip (or_empty p))) = predict (Some (strip (or_empty q))) ->
  analyze_prompt predict p = analyze_prompt predict q.
Proof.
  unfold analyze_prompt, or_empty. intros Hk Hp. now rewrite Hk, Hp.
Qed.

(** Two prompts with the same lower-case form get the same report. *)
Lemma analyze_lower_ext {X : Type}
    (model : option (Model X)) (vectorizer : option (Vectorizer X))
    (s u : str) :
  lower u = lower s ->
  analyze model vectorizer (Some u) = analyze model vectorizer (Some s).
Proof.
  intros H. unfold analyze.
  assert (Hs : lower (strip u) = lower (strip s))
    by now rewrite <- !strip_lower, H.
  apply analyze_prompt_ext; cbn [or_empty].
  - now apply keyword_score_lower_ext.
  - apply predict_prompt_preprocess. unfold _preprocess. now rewrite Hs.
Qed.

Lemma upper_char_defined (c : ascii) :
  c <> micro_sign -> c <> y_diaeresis -> exists u, upper_char c = Some u.
Proof.
  each_char c; intros H1 H2;
    try (exfalso; apply H1; reflexivity);
    try (exfalso; apply H2; reflexivity);
    eexists; vm_compute; reflexivity.
Qed.

Lemma upper_defined (s : str) :
  ~ In micro_sign s -> ~ In y_diaeresis s -> exists u, upper s = Some u.
Proof.
  induction s as [| c s IH]; intros H1 H2.
  - now exists [].
  - destruct (@upper_char_defined c) as (uc & Ec).
    + intros ->. apply H1. now left.
    + intros ->. apply H2. now left.
    + destruct IH as (us & Es).
      * intros H. apply H1. now right.
      * intros H. apply H2. now right.
      * exists (uc ++ us). simpl. now rewrite Ec, Es.
Qed.

Lemma upper_lower (s u : str) :
  upper s = Some u -> ~ In sharp_s s -> lower u = lower s.
Proof.
  revert u. induction s as [| c s IH]; intros u H Hn; simpl in H.
  - now injection H as <-.
  - destruct (upper_char c) as [uc |] eqn:Ec; [| discriminate].
    destruct (upper s) as [us |]; [| discriminate].
    injection H as <-. unfold lower in *. rewrite map_app. simpl.
    rewrite (IH us eq_refl) by (intros Hin; apply Hn; now right).
    assert (Hc : c <> sharp_s) by (intros ->; apply Hn; now left).
    pose proof (upper_char_lower Hc Ec) as Hl. unfold lower in Hl.
    now rewrite Hl.
Qed.

(** C10, as the code has it. With any artifacts, the report of a prompt
    is the report of its lower-case form and of the prompt with white
    space added at either end; it is the report of every string with the
    same lower-case form, and so of the upper-case form of every prompt
    in which none of the letters U+00DF, U+00B5 and U+00FF occurs, which
    includes every prompt of ASCII characters. *)
Theorem analyze_invariant_under_case_and_padding :
  forall (X : Type) (model : option (Model X))
         (vectorizer : option (Vectorizer X)) (s ws1 ws2 : str),
    blank_str ws1 -> blank_str ws2 ->
    analyze model vectorizer (Some (lower s))
    = analyze model vectorizer (Some s)
    /\ analyze model vectorizer (Some (ws1 ++ s ++ ws2))
       = analyze model vectorizer (Some s)
    /\ (forall u, lower u = lower s ->
          analyze model vectorizer (Some u)
          = analyze model vectorizer (Some s))
    /\ (~ In sharp_s s -> ~ In micro_sign s -> ~ In y_diaeresis s ->
        exists u, upper s = Some u
                  /\ lower u = lower s
                  /\ analyze model vectorizer (Some u)
                     = analyze model vectorizer (Some s))
    /\ ((forall c, In c s -> (code c < 128)%N) ->
        exists u, upper s = Some u
                  /\ analyze model vectorizer (Some u)
                     = analyze model vectorizer (Some s)).
Proof.
  intros X model vectorizer s ws1 ws2 H1 H2.
  assert (Hup : ~ In sharp_s s -> ~ In micro_sign s -> ~ In y_diaeresis s ->
                exists u, upper s = Some u
                          /\ lower u = lower s
                          /\ analyze model vectorizer (Some u)
                             = analyze model vectorizer (Some s)).
  { intros Hs Hm Hy. destruct (upper_defined s Hm Hy) as (u & Hu).
    pose proof (upper_lower _ Hu Hs) as Hl.
    exists u. split; [assumption |].
    split; [assumption | now apply analyze_lower_ext]. }
  split; [| split; [| split; [| split; [exact Hup |]]]].
  - apply analyze_lower_ext, lower_idem.
  - unfold analyze, analyze_prompt. cbn [or_empty].
    now rewrite strip_pad.
  - intros u Hu. now apply analyze_lower_ext.
  - intros Hascii.
    destruct Hup as (u & Hu & _ & Ha).
    + intros H. specialize (Hascii _ H). vm_compute in Hascii. discriminate.
    + intros H. specialize (Hascii _ H). vm_compute in Hascii. discriminate.
    + intros H. specialize (Hascii _ H). vm_compute in Hascii. discriminate.
    + exists u. split; assumption.
Qed.

Lemma analyze_invariant_under_case_and_padding_witness :
  let model := Some Examples.malicious_model in
  let vectorizer := Some Examples.constant_vectorizer in
  let s := lit "How to Hack a Password?" in
  let ws1 := lit "  " in
  let ws2 := lit " " in
  analyze model vectorizer (Some (lower s))
  = analyze model vectorizer (Some s)
  /\ analyze model vectorizer (Some (ws1 ++ s ++ ws2))
     = analyze model vectorizer (Some s)
  /\ (forall u, lower u = lower s ->
        analyze model vectorizer (Some u)
        = analyze model vectorizer (Some s))
  /\ (~ In sharp_s s -> ~ In micro_sign s -> ~ In y_diaeresis s ->
      exists u, upper s = Some u
                /\ lower u = lower s
                /\ analyze model vectorizer (Some u)
                   = analyze model vectorizer (Some s))
  /\ ((forall c, In c s -> (code c < 128)%N) ->
      exists u, upper s = Some u
                /\ analyze model vectorizer (Some u)
                   = analyze model vectorizer (Some s)).
Proof.
  apply (@analyze_invariant_under_case_and_padding unit
           (Some Examples.malicious_model)
           (Some Examples.constant_vectorizer)
           (lit "How to Hack a Password?") (lit "  ") (lit " ")).
  - reflexivity.
  - reflexivity.
Defined.

(** C10, as stated, fails for upper case: the upper-case form of
    "hack pa\223word" is "HACK PASSWORD", whose report has score 3 and
    level MEDIUM, while the prompt itself has score 0 and level SAFE. *)
Lemma sharp_s_breaks_upper_case_invariance :
  let s := lit "hack pa" ++ sharp_s :: lit "word" in
  upper s = Some (lit "HACK PASSWORD")
  /\ exists r1 r2 : ThreatReport,
       analyze (X := unit) None None (Some s) = Returns r1
       /\ analyze (X := unit) None None (Some (lit "HACK PASSWORD"))
          = Returns r2
       /\ (threatScore r1 == 0)%Q /\ (threatScore r2 == 3)%Q
       /\ threatLevel r1 = lit "SAFE" /\ threatLevel r2 = lit "MEDIUM"
       /\ detectedTargets r1 = [] /\ detectedTargets r2 = [lit "password"]
       /\ analyze (X := unit) None None (Some s)
          <> analyze (X := unit) None None (Some (lit "HACK PASSWORD")).
Proof.
  cbv zeta. split; [vm_compute; reflexivity |].
  eexists. eexists.
  split; [vm_compute; reflexivity |].
  split; [vm_compute; reflexivity |].
  repeat split; try (vm_compute; reflexivity).
  vm_compute. discriminate.
Qed.

End CaseAndPadding.

(* ================================================================== *)
(** * Further properties of the edit distance and of the matcher *)
(* ================================================================== *)

Section DistanceFacts.

Lemma edits_lengths (a b : str) (n : nat) :
  edits a b n -> length a <= length b + n /\ length b <= length a + n.
Proof. induction 1; simpl; lia. Qed.

Lemma edits_by_substitution (a b : str) :
  edits a b (Nat.max (length a) (length b)).
Proof.
  revert b. induction a as [| x a IH]; intros b.
  - apply edits_insert_all.
  - destruct b as [| y b].
    + apply edits_delete_all.
    + simpl. apply edits_sub, IH.
Qed.

(** X1. The distance of [_levenshtein] is a metric on strings: it is
    symmetric, it is 0 exactly for equal strings, and it obeys the
    triangle inequality. *)
Theorem levenshtein_is_a_metric :
  forall a b c : str,
    _levenshtein a b = _levenshtein b a
    /\ (_levenshtein a b = 0 <-> a = b)
    /\ _levenshtein a c <= _levenshtein a b + _levenshtein b c.
Proof.
  intros a b c. rewrite !levenshtein_is_lev_rec.
  split; [apply lev_rec_sym |].
  split; [apply lev_rec_zero | apply lev_rec_triangle].
Qed.

(** X2. The distance is at least the difference of the two lengths and
    at most the longer length; against the empty string it is the length
    of the other string. *)
Theorem levenshtein_length_bounds :
  forall a b : str,
    length a - length b <= _levenshtein a b
    /\ length b - length a <= _levenshtein a b
    /\ _levenshtein a b <= Nat.max (length a) (length b)
    /\ _levenshtein [] b = length b
    /\ _levenshtein a [] = length a.
Proof.
  intros a b. rewrite !levenshtein_is_lev_rec.
  pose proof (edits_lengths (edits_lev_rec a b)) as [H1 H2].
  pose proof (lev_rec_least (edits_by_substitution a b)) as H3.
  repeat split; try lia.
  apply lev_rec_nil_r.
Qed.

End DistanceFacts.

Section ClosestFacts.

Lemma app_cons_split {A : Type} (p p' q q' : list A) (c c' : A) :
  p ++ c :: q = p' ++ c' :: q' ->
  (p = p' /\ c = c' /\ q = q')
  \/ (In c p' /\ In c' q)
  \/ (In c' p /\ In c q').
Proof.
  revert p'. induction p as [| x p IH]; intros [| y p'] E; simpl in E.
  - injection E as -> ->. now left.
  - injection E as -> ->. right. left.
    split; [now left | apply in_elt].
  - injection E as -> <-. right. right.
    split; [now left | apply in_elt].
  - injection E as -> E. destruct (IH p' E) as [(-> & -> & ->) | [[H1 H2] | [H1 H2]]].
    + now left.
    + right. left. split; [now right | assumption].
    + right. right. split; [now right | assumption].
Qed.

Lemma first_closest_unique (token : str) (candidates : list str)
    (d d' : nat) (c c' : str) :
  first_closest token candidates d c ->
  first_closest token candidates d' c' -> c = c'.
Proof.
  intros (_ & p & q & E & Hp & Hq) (_ & p' & q' & E' & Hp' & Hq').
  rewrite E in E'.
  destruct (app_cons_split _ _ _ _ _ _ E')
    as [(_ & H & _) | [[H1 H2] | [H1 H2]]]; [assumption | |].
  - specialize (Hp' c H1). specialize (Hq c' H2). lia.
  - specialize (Hp c' H1). specialize (Hq' c H2). lia.
Qed.

Lemma first_closest_in (token : str) (candidates : list str)
    (d : nat) (c : str) :
  first_closest token candidates d c -> In c candidates.
Proof. intros (_ & p & q & -> & _). apply in_elt. Qed.

Lemma closest_match_none (token : str) (candidates : list str) (d : nat) :
  _closest_match token candidates d = None
  <-> forall c, In c candidates -> d < lev_rec token c.
Proof.
  pose proof (closest_match_result token d candidates) as H.
  destruct (_closest_match token candidates d) as [c |].
  - split; [discriminate |]. intros Hall.
    pose proof (Hall c (first_closest_in H)). destruct H as [H _]. lia.
  - split; [intros _; exact H | reflexivity].
Qed.

Lemma closest_match_some (token : str) (candidates : list str) (d : nat)
    (c : str) :
  _closest_match token candidates d = Some c
  <-> first_closest token candidates d c.
Proof.
  pose proof (closest_match_result token d candidates) as H.
  destruct (_closest_match token candidates d) as [c' |].
  - split.
    + intros E. injection E as <-. exact H.
    + intros Hc. f_equal. exact (first_closest_unique H Hc).
  - split; [discriminate |]. intros Hc.
    pose proof (H c (first_closest_in Hc)). destruct Hc as [Hc _]. lia.
Qed.

Lemma in_split_first {A : Type} (dec : forall x y : A, {x = y} + {x <> y})
    (x : A) (l : list A) :
  In x l -> exists p q, l = p ++ x :: q /\ ~ In x p.
Proof.
  induction l as [| y l IH]; [intros [] |].
  intros H. destruct (dec y x) as [-> | Hne].
  - exists [], l. split; [reflexivity | intros []].
  - destruct H as [H | H]; [contradiction |].
    destruct (IH H) as (p & q & -> & Hp).
    exists (y :: p), q. split; [reflexivity |].
    intros [E | Hin]; [contradiction | now apply Hp].
Qed.

Lemma closest_match_member (token : str) (candidates : list str) (d : nat) :
  In token candidates -> _closest_match token candidates d = Some token.
Proof.
  intros Hin. apply closest_match_some.
  assert (H0 : lev_rec token token = 0) by now apply lev_rec_zero.
  split; [lia |].
  destruct (in_split_first (list_eq_dec ascii_dec) _ _ Hin)
    as (p & q & E & Hp).
  exists p, q. split; [assumption |]. split.
  - intros c' Hc'. rewrite H0.
    destruct (lev_rec token c') eqn:E0; [| lia].
    apply lev_rec_zero in E0. subst c'. contradiction.
  - intros c' _. lia.
Qed.

(** X3. For every budget: [_closest_match] returns no match exactly when
    every candidate is farther than the budget, in particular for an
    empty list; it returns [c] exactly when [c] is within the budget,
    every candidate before [c] is strictly farther and no candidate
    after [c] is nearer. A match is a candidate. *)
Theorem closest_match_is_first_nearest_within_budget :
  forall (token : str) (candidates : list str) (max_dist : nat),
    (_closest_match token candidates max_dist = None
     <-> forall c, In c candidates -> max_dist < _levenshtein token c)
    /\ (forall c,
          _closest_match token candidates max_dist = Some c
          <-> _levenshtein token c <= max_dist
              /\ exists p q : list str,
                   candidates = p ++ c :: q
                   /\ (forall c', In c' p ->
                         _levenshtein token c < _levenshtein token c')
                   /\ (forall c', In c' q ->
                         _levenshtein token c <= _levenshtein token c'))
    /\ (forall c, _closest_match token candidates max_dist = Some c ->
          In c candidates)
    /\ _closest_match token [] max_dist = None.
Proof.
  intros token candidates max_dist.
  split; [| split; [| split; [| reflexivity]]].
  - rewrite closest_match_none. split; intros H c Hc;
      specialize (H c Hc); now rewrite levenshtein_is_lev_rec in *.
  - intros c. rewrite closest_match_some. unfold first_closest.
    rewrite levenshtein_is_lev_rec.
    split; intros (Hd & p & q & E & Hp & Hq); (split; [assumption |]);
      exists p, q; (split; [assumption |]);
      split; intros c' Hc'; [specialize (Hp c' Hc') | specialize (Hq c' Hc')
                             | specialize (Hp c' Hc') | specialize (Hq c' Hc')];
      now rewrite ?levenshtein_is_lev_rec in *.
  - intros c H. apply closest_match_some in H. exact (first_closest_in H).
Qed.

(** X4. A larger budget never changes a match: what is found within
    [d] is found within every [d'] above [d]; and a match found within
    [d'] whose distance is at most [d] is the match found within [d]. *)
Theorem closest_match_stable_under_budget :
  forall (token : str) (candidates : list str) (d d' : nat) (c : str),
    d <= d' ->
    (_closest_match token candidates d = Some c ->
     _closest_match token candidates d' = Some c)
    /\ (_closest_match token candidates d' = Some c ->
        _levenshtein token c <= d ->
        _closest_match token candidates d = Some c).
Proof.
  intros token candidates d d' c Hle. rewrite levenshtein_is_lev_rec.
  rewrite !closest_match_some. unfold first_closest.
  split.
  - intros (Hd & H). split; [lia | exact H].
  - intros (_ & H) Hd. split; [exact Hd | exact H].
Qed.

Lemma closest_match_stable_under_budget_witness :
  (_closest_match (lit "hsck") RISKY_ACTIONS 1 = Some (lit "hack") ->
   _closest_match (lit "hsck") RISKY_ACTIONS 3 = Some (lit "hack"))
  /\ (_closest_match (lit "hsck") RISKY_ACTIONS 3 = Some (lit "hack") ->
      _levenshtein (lit "hsck") (lit "hack") <= 1 ->
      _closest_match (lit "hsck") RISKY_ACTIONS 1 = Some (lit "hack")).
Proof.
  apply (@closest_match_stable_under_budget
           (lit "hsck") RISKY_ACTIONS 1 3 (lit "hack")).
  lia.
Defined.

(** X5. The test [token in lexicon] in front of [_closest_match] does
    not change the result: a token that is in the list is its own
    closest match for every budget, so the match of a token is
    [_closest_match token lexicon 1] in all cases. *)
Theorem exact_test_agrees_with_closest_match :
  forall (token : str) (lexicon : list str),
    match_token token lexicon = _closest_match token lexicon 1
    /\ (forall max_dist, In token lexicon ->
          _closest_match token lexicon max_dist = Some token).
Proof.
  intros token lexicon. split.
  - unfold match_token. destruct (mem token lexicon) eqn:E; [| reflexivity].
    apply mem_In in E. symmetry. now apply closest_match_member.
  - intros max_dist H. now apply closest_match_member.
Qed.

End ClosestFacts.

(* ================================================================== *)
(** * Further properties of the scorer: hits and evidence *)
(* ================================================================== *)

Section HitFacts.

Open Scope Z_scope.

Lemma match_token_in (token : str) (lexicon : list str) (w : str) :
  match_token token lexicon = Some w -> In w lexicon.
Proof.
  unfold match_token. destruct (mem token lexicon) eqn:E.
  - intros H. injection H as <-. now apply mem_In.
  - intros H. apply closest_match_some in H. exact (first_closest_in H).
Qed.

Lemma system_lexicon_nonempty (lexicon : list str) (w : str) :
  system_lexicon lexicon -> In w lexicon -> w <> [].
Proof.
  intros Hsys Hw.
  exact (proj1 (separated_spec _ (system_lexicon_separated Hsys) w w Hw Hw)).
Qed.

Lemma in_hits_of (lexicon : list str) (tokens : list (Z * str)) (h : hit) :
  In h (hits_of lexicon tokens)
  <-> exists tok, In (idx h, tok) tokens
                  /\ match_token tok lexicon = Some (word h)
                  /\ word h <> [].
Proof.
  unfold hits_of. rewrite in_flat_map. split.
  - intros ([i tok] & Hin & Hh). cbn [fst snd] in Hh.
    destruct (match_token tok lexicon) as [[| c w] |] eqn:E;
      try contradiction.
    destruct Hh as [<- | []]. cbn [idx word].
    exists tok. repeat split; [assumption | assumption | discriminate].
  - intros (tok & Hin & Hm & Hne). exists (idx h, tok).
    split; [assumption |]. cbn [fst snd]. rewrite Hm.
    destruct h as [[| c w] i]; cbn [word idx] in *; [contradiction |].
    now left.
Qed.

Lemma in_enumerate_from (l : list str) (start i : Z) (tok : str) :
  In (i, tok) (enumerate_from start l)
  <-> start <= i /\ nth_error l (Z.to_nat (i - start)) = Some tok.
Proof.
  revert start. induction l as [| x l IH]; intros start; simpl.
  - split; [intros [] |]. intros [_ H].
    destruct (Z.to_nat (i - start)); discriminate.
  - rewrite IH. split.
    + intros [E | [Hle Hn]].
      * injection E as -> ->. split; [lia |].
        now rewrite Z.sub_diag.
      * split; [lia |].
        replace (Z.to_nat (i - start)) with (S (Z.to_nat (i - (start + 1))))
          by lia.
        exact Hn.
    + intros [Hle Hn]. destruct (Z.eq_dec i start) as [-> | Hne].
      * left. rewrite Z.sub_diag in Hn. simpl in Hn. now injection Hn as ->.
      * right. split; [lia |].
        replace (Z.to_nat (i - start)) with (S (Z.to_nat (i - (start + 1))))
          in Hn by lia.
        exact Hn.
Qed.

Lemma hits_of_sorted (lexicon : list str) (l : list str) (start : Z) :
  StronglySorted Z.lt (map idx (hits_of lexicon (enumerate_from start l))).
Proof.
  revert start. induction l as [| x l IH]; intros start.
  - constructor.
  - cbn [enumerate_from hits_of flat_map]. cbn [fst snd].
    fold (hits_of lexicon (enumerate_from (start + 1) l)).
    destruct (match_token x lexicon) as [[| c w] |]; cbn [app map];
      try apply IH.
    constructor; [apply IH |].
    apply Forall_forall. intros i Hi. apply in_map_iff in Hi.
    destruct Hi as (h & <- & Hh). apply in_hits_of in Hh.
    destruct Hh as (tok & Hin & _). apply in_enumerate_from in Hin.
    cbn [idx]. lia.
Qed.

(** X7. Each of the three hit lists built by the loop over the tokens
    follows the token positions: its indices are strictly increasing, so
    a token gives at most one hit per lexicon, and a hit is in the list
    exactly when its index is the position of a token whose match in
    that lexicon is the hit's word. *)
Theorem scan_hits_follow_token_positions :
  forall tokens : list str,
    let positional (hits : list hit) (lexicon : list str) : Prop :=
      StronglySorted Z.lt (map idx hits)
      /\ forall h : hit,
           In h hits
           <-> exists tok,
                 0 <= idx h
                 /\ nth_error tokens (Z.to_nat (idx h)) = Some tok
                 /\ match_token tok lexicon = Some (word h) in
    positional (fst (fst (scan tokens))) RISKY_ACTIONS
    /\ positional (snd (fst (scan tokens))) SENSITIVE_TARGETS
    /\ positional (snd (scan tokens)) SAFE_TARGETS.
Proof.
  intros tokens. cbv zeta. rewrite scan_hits. cbn [fst snd].
  assert (H : forall lexicon, system_lexicon lexicon ->
            StronglySorted Z.lt (map idx (hits_of lexicon (enumerate tokens)))
            /\ forall h : hit,
                 In h (hits_of lexicon (enumerate tokens))
                 <-> exists tok,
                       0 <= idx h
                       /\ nth_error tokens (Z.to_nat (idx h)) = Some tok
                       /\ match_token tok lexicon = Some (word h)).
  { intros lexicon Hsys. split; [apply hits_of_sorted |].
    intros h. rewrite in_hits_of. unfold enumerate. split.
    - intros (tok & Hin & Hm & _). apply in_enumerate_from in Hin.
      rewrite Z.sub_0_r in Hin. exists tok. tauto.
    - intros (tok & H0 & Hn & Hm). exists tok.
      split; [apply in_enumerate_from; now rewrite Z.sub_0_r |].
      split; [assumption |].
      apply (system_lexicon_nonempty Hsys). exact (match_token_in _ _ Hm). }
  split; [apply H; now left |].
  split; [apply H; right; now left | apply H; right; now right].
Qed.

Lemma in_unique_words (lexicon : list str) (tokens : list str) (w : str) :
  system_lexicon lexicon ->
  In w (unique_words (hits_of lexicon (enumerate tokens)))
  <-> exists tok, In tok tokens /\ match_token tok lexicon = Some w.
Proof.
  intros Hsys. unfold unique_words. rewrite nodup_In, in_map_iff. split.
  - intros (h & <- & Hh). apply in_hits_of in Hh.
    destruct Hh as (tok & Hin & Hm & _).
    apply in_enumerate_from in Hin. destruct Hin as [_ Hn].
    exists tok. split; [eapply nth_error_In, Hn | assumption].
  - intros (tok & Hin & Hm).
    destruct (In_nth_error _ _ Hin) as (n & Hn).
    exists {| word := w; idx := Z.of_nat n |}. split; [reflexivity |].
    apply in_hits_of. cbn [word idx]. exists tok.
    split; [| split; [assumption |]].
    + apply in_enumerate_from. split; [lia |].
      now rewrite Z.sub_0_r, Nat2Z.id.
    + apply (system_lexicon_nonempty Hsys). exact (match_token_in _ _ Hm).
Qed.

End HitFacts.

Section EvidenceFacts.

(** X6. In every report the evidence lists hold lexicon entries, not
    the words as typed: each detected action is in [RISKY_ACTIONS], each
    detected target is in [SENSITIVE_TARGETS] and never a safe target,
    no word is listed twice, and a word is listed exactly when some
    token of the prompt matches it. *)
Theorem evidence_lists_lexicon_entries_once :
  forall (predict : option str -> outcome MLResult) (prompt : option str),
    exists rep : ThreatReport,
      analyze_prompt predict prompt = Returns rep
      /\ NoDup (detectedActions rep)
      /\ NoDup (detectedTargets rep)
      /\ (forall w, In w (detectedActions rep) -> In w RISKY_ACTIONS)
      /\ (forall w, In w (detectedTargets rep) ->
            In w SENSITIVE_TARGETS /\ ~ In w SAFE_TARGETS)
      /\ (forall w,
            In w (detectedActions rep)
            <-> exists tok,
                  In tok (split (normalize (strip (or_empty prompt))))
                  /\ match_token tok RISKY_ACTIONS = Some w)
      /\ (forall w,
            In w (detectedTargets rep)
            <-> exists tok,
                  In tok (split (normalize (strip (or_empty prompt))))
                  /\ match_token tok SENSITIVE_TARGETS = Some w).
Proof.
  intros predict prompt.
  destruct (analyze_prompt_report predict prompt)
    as (rep & Hret & _ & _ & _ & Ha & Ht & _).
  exists rep. split; [exact Hret |].
  rewrite Ha, Ht, keyword_score_unfold. cbn [fst snd].
  set (tokens := split (normalize (strip (or_empty prompt)))).
  assert (HR : system_lexicon RISKY_ACTIONS) by now left.
  assert (HS : system_lexicon SENSITIVE_TARGETS) by (right; now left).
  split; [apply NoDup_nodup |]. split; [apply NoDup_nodup |].
  split; [| split; [| split]].
  - intros w Hw. apply (in_unique_words _ _ HR) in Hw.
    destruct Hw as (tok & _ & Hm). exact (match_token_in _ _ Hm).
  - intros w Hw. apply (in_unique_words _ _ HS) in Hw.
    destruct Hw as (tok & _ & Hm). pose proof (match_token_in _ _ Hm) as Hin.
    split; [assumption |]. intros Hsafe.
    assert (Hd : forallb (fun s => negb (mem s SAFE_TARGETS)) SENSITIVE_TARGETS
                 = true) by (vm_compute; reflexivity).
    rewrite forallb_forall in Hd. specialize (Hd w Hin).
    apply mem_In in Hsafe. rewrite Hsafe in Hd. discriminate.
  - intros w. apply (in_unique_words _ _ HR).
  - intros w. apply (in_unique_words _ _ HS).
Qed.

End EvidenceFacts.

Section ScoreFacts.

Open Scope Z_scope.

Lemma pairs_in_window_pos (xs ys : list hit) :
  0 < pairs_in_window xs ys
  <-> exists a t, In a xs /\ In t ys /\ Z.abs (idx a - idx t) <= 3.
Proof.
  unfold pairs_in_window. split.
  - intros H.
    destruct (filter in_window (list_prod xs ys)) as [| [a t] l] eqn:E;
      [simpl in H; lia |].
    assert (Hin : In (a, t) (filter in_window (list_prod xs ys)))
      by (rewrite E; now left).
    apply filter_In in Hin. destruct Hin as [Hp Hw].
    apply in_prod_iff in Hp. exists a, t.
    unfold in_window in Hw. cbn [fst snd] in Hw. apply Z.leb_le in Hw. tauto.
  - intros (a & t & Ha & Ht & Hw).
    assert (Hin : In (a, t) (filter in_window (list_prod xs ys))).
    { apply filter_In. split; [now apply in_prod |].
      unfold in_window. cbn [fst snd]. now apply Z.leb_le. }
    destruct (filter in_window (list_prod xs ys)); [contradiction |].
    simpl length. lia.
Qed.

(** X8. A keyword score above 1 needs an action hit within three tokens
    of a target hit: without such a pair the score is just the intent
    phrase, 0 or 1, and so it is when there is no action hit at all. In
    the other direction an action hit within three tokens of a
    sensitive-target hit makes the score at least 3. *)
Theorem keyword_score_above_one_needs_action_near_target :
  forall prompt : str,
    let tokens := split (normalize prompt) in
    let actions := fst (fst (scan tokens)) in
    let sensitive := snd (fst (scan tokens)) in
    let safe := snd (scan tokens) in
    let score := fst (fst (_keyword_score prompt)) in
    (2 <= score ->
     exists a t, In a actions /\ (In t sensitive \/ In t safe)
                 /\ Z.abs (idx a - idx t) <= 3)
    /\ ((forall a t, In a actions -> In t sensitive \/ In t safe ->
                     3 < Z.abs (idx a - idx t)) ->
        score = if has_intent (normalize prompt) then 1 else 0)
    /\ (actions = [] -> score = if has_intent (normalize prompt) then 1 else 0)
    /\ ((exists a t, In a actions /\ In t sensitive
                     /\ Z.abs (idx a - idx t) <= 3) ->
        3 <= score).
Proof.
  intros prompt. cbv zeta. rewrite keyword_score_unfold, scan_hits.
  cbn [fst snd]. unfold Spec.keyword_score.
  set (toks := enumerate (split (normalize prompt))).
  set (acts := hits_of RISKY_ACTIONS toks).
  set (sens := hits_of SENSITIVE_TARGETS toks).
  set (safe := hits_of SAFE_TARGETS toks).
  pose proof (pairs_in_window_nonneg acts sens) as H1.
  pose proof (pairs_in_window_nonneg acts safe) as H2.
  pose proof (pairs_in_window_pos acts sens) as P1.
  pose proof (pairs_in_window_pos acts safe) as P2.
  assert (Hnone : (forall a t, In a acts -> In t sens \/ In t safe ->
                               3 < Z.abs (idx a - idx t)) ->
                  pairs_in_window acts sens = 0
                  /\ pairs_in_window acts safe = 0).
  { intros Hfar. split.
    - destruct (Z.eq_dec (pairs_in_window acts sens) 0) as [E | NE];
        [assumption |].
      destruct (proj1 P1 ltac:(lia)) as (a & t & Ha & Ht & Hw).
      specialize (Hfar a t Ha (or_introl Ht)). lia.
    - destruct (Z.eq_dec (pairs_in_window acts safe) 0) as [E | NE];
        [assumption |].
      destruct (proj1 P2 ltac:(lia)) as (a & t & Ha & Ht & Hw).
      specialize (Hfar a t Ha (or_intror Ht)). lia. }
  split; [| split; [| split]].
  - intros Hs.
    destruct (Z.eq_dec (pairs_in_window acts sens) 0) as [E1 | NE1].
    + destruct (Z.eq_dec (pairs_in_window acts safe) 0) as [E2 | NE2].
      * rewrite E1, E2 in Hs. destruct (has_intent _); lia.
      * destruct (proj1 P2 ltac:(lia)) as (a & t & Ha & Ht & Hw).
        exists a, t. tauto.
    + destruct (proj1 P1 ltac:(lia)) as (a & t & Ha & Ht & Hw).
      exists a, t. tauto.
  - intros Hfar. destruct (Hnone Hfar) as [-> ->].
    destruct (has_intent _); reflexivity.
  - intros Hacts.
    assert (Hfar : forall a t, In a acts -> In t sens \/ In t safe ->
                               3 < Z.abs (idx a - idx t)).
    { intros a t Ha. rewrite Hacts in Ha. contradiction. }
    destruct (Hnone Hfar) as [-> ->].
    destruct (has_intent _); reflexivity.
  - intros Hpair. apply P1 in Hpair. destruct (has_intent _); lia.
Qed.

(** X9. The keyword score and its evidence depend on the prompt only
    through its tokens: prompts whose lower-case forms have the same
    runs of word characters, whatever their punctuation and spacing, get
    the same keyword result and, with the artifacts absent, the same
    report. *)
Theorem keyword_result_depends_on_tokens_only :
  forall p q : str,
    word_runs (lower p) = word_runs (lower q) ->
    _keyword_score p = _keyword_score q
    /\ forall X : Type,
         analyze (X := X) None None (Some p)
         = analyze (X := X) None None (Some q).
Proof.
  intros p q H.
  assert (Hn : forall a b, word_runs (lower a) = word_runs (lower b) ->
                           _keyword_score a = _keyword_score b).
  { intros a b E. rewrite !keyword_score_unfold, !normalize_join.
    now rewrite E. }
  split; [now apply Hn |].
  intros X. unfold analyze. apply analyze_prompt_ext; [| reflexivity].
  cbn [or_empty]. apply Hn.
  now rewrite <- !strip_lower, !word_runs_strip.
Qed.

Lemma keyword_result_depends_on_tokens_only_witness :
  _keyword_score (lit "hack, the password!!")
  = _keyword_score (lit " Hack the   PASSWORD")
  /\ forall X : Type,
       analyze (X := X) None None (Some (lit "hack, the password!!"))
       = analyze (X := X) None None (Some (lit " Hack the   PASSWORD")).
Proof.
  apply (@keyword_result_depends_on_tokens_only
           (lit "hack, the password!!") (lit " Hack the   PASSWORD")).
  vm_compute. reflexivity.
Defined.

End ScoreFacts.

(* ================================================================== *)
(** * Further properties of the fusion *)
(* ================================================================== *)

Section FusionFacts.

Open Scope Q_scope.

Lemma round_integer (k : Z) (n : nat) : round (inject_Z k) n == inject_Z k.
Proof.
  apply Qle_antisym.
  - apply (@round_le k (inject_Z k) n), Qle_refl.
  - apply (@round_ge k (inject_Z k) n), Qle_refl.
Qed.

Lemma min_10_small (q : Q) : q < 10 -> min 10 q = q.
Proof.
  intros H. unfold min. destruct (Qle_bool 10 q) eqn:E; [| reflexivity].
  apply Qle_bool_iff in E. lra.
Qed.

Lemma Qle_bool_false (a b : Q) : Qle_bool a b = false <-> b < a.
Proof.
  split.
  - intros E. apply Qnot_le_lt. intros H. apply Qle_bool_iff in H.
    congruence.
  - intros H. destruct (Qle_bool a b) eqn:E; [| reflexivity].
    apply Qle_bool_iff in E. lra.
Qed.

Lemma fused_total_not_malicious (kw : Z) (ml : MLResult) :
  ml_prediction ml <> lit "MALICIOUS" -> fused_total kw ml = inject_Z kw.
Proof.
  intros H. unfold fused_total.
  destruct (str_eqb _ _) eqn:E; [| reflexivity].
  apply str_eq_lit in E. contradiction.
Qed.

(** X10. When the classifier raises or returns a label other than
    MALICIOUS, the score of the report is the keyword score, a whole
    number from 0 to 5; such a report is never HIGH and its confidence
    label is never high. *)
Theorem keyword_only_report_is_never_high :
  forall (predict : option str -> outcome MLResult) (prompt : option str),
    ml_prediction
      (classifier_result (predict (Some (strip (or_empty prompt)))))
    <> lit "MALICIOUS" ->
    exists rep : ThreatReport,
      analyze_prompt predict prompt = Returns rep
      /\ threatScore rep
         == inject_Z (fst (fst (_keyword_score (strip (or_empty prompt)))))
      /\ 0 <= threatScore rep /\ threatScore rep <= 5
      /\ threatLevel rep <> lit "HIGH"
      /\ confidence rep <> lit "high".
Proof.
  intros predict prompt Hl.
  destruct (analyze_prompt_report predict prompt)
    as (rep & Hret & Hscore & Hlevel & Hconf & _).
  exists rep. split; [exact Hret |].
  pose proof (fun kw => @fused_total_not_malicious kw _ Hl) as Hf.
  rewrite Hf in *. clear Hf.
  set (kw := fst (fst (_keyword_score (strip (or_empty prompt))))) in *.
  pose proof (code_keyword_score_range (strip (or_empty prompt))) as Hkw.
  fold kw in Hkw.
  pose proof (round_integer kw 1) as Hr.
  assert (H0 : 0 <= inject_Z kw) by (unfold Qle; simpl; lia).
  assert (H5 : inject_Z kw <= 5) by (unfold Qle; simpl; lia).
  assert (Hs : threatScore rep == inject_Z kw).
  { rewrite Hscore, min_10_small; [exact Hr | lra]. }
  split; [exact Hs |]. split; [lra |]. split; [lra |].
  rewrite Hlevel, Hconf, <- Hscore.
  assert (E6 : Qle_bool (threatScore rep) 6 = true)
    by (apply Qle_bool_iff; lra).
  assert (E8 : Qle_bool 8 (threatScore rep) = false)
    by (apply Qle_bool_false; lra).
  rewrite E6, E8.
  split; [destruct (Qle_bool (threatScore rep) 2)
         | destruct (Qle_bool 4 (threatScore rep))];
    intros H; discriminate H.
Qed.

Lemma keyword_only_report_is_never_high_witness :
  exists rep : ThreatReport,
    analyze_prompt (fun _ => Returns _SAFE_DEFAULT)
      (Some (lit "hack user password")) = Returns rep
    /\ threatScore rep
       == inject_Z (fst (fst (_keyword_score
                                (strip (or_empty (Some (lit "hack user password")))))))
    /\ 0 <= threatScore rep /\ threatScore rep <= 5
    /\ threatLevel rep <> lit "HIGH"
    /\ confidence rep <> lit "high".
Proof.
  apply (@keyword_only_report_is_never_high
           (fun _ => Returns _SAFE_DEFAULT) (Some (lit "hack user password"))).
  discriminate.
Defined.

(** X11. A classifier result with a confidence that is not negative
    never brings the score below the keyword score. *)
Theorem classifier_never_lowers_the_score :
  forall (predict : option str -> outcome MLResult) (prompt : option str),
    0 <= ml_confidence
           (classifier_result (predict (Some (strip (or_empty prompt))))) ->
    exists rep : ThreatReport,
      analyze_prompt predict prompt = Returns rep
      /\ inject_Z (fst (fst (_keyword_score (strip (or_empty prompt)))))
         <= threatScore rep.
Proof.
  intros predict prompt Hc.
  destruct (analyze_prompt_report predict prompt)
    as (rep & Hret & Hscore & _).
  exists rep. split; [exact Hret |]. rewrite Hscore.
  set (kw := fst (fst (_keyword_score (strip (or_empty prompt))))).
  set (ml := classifier_result _) in *.
  pose proof (code_keyword_score_range (strip (or_empty prompt))) as Hkw.
  fold kw in Hkw.
  apply min_10_ge; [unfold Qle; simpl; lia |].
  apply (@round_ge kw _ 1). unfold fused_total.
  destruct (str_eqb _ _); [| apply Qle_refl].
  assert (H1 : inject_Z kw <= inject_Z kw + ml_confidence ml * 5) by lra.
  destruct (Qle_bool (1 # 2) _); [| exact H1].
  destruct (Qle_bool 7 _) eqn:E; [exact H1 |].
  apply Qle_bool_false in E. lra.
Qed.

Lemma classifier_never_lowers_the_score_witness :
  exists rep : ThreatReport,
    analyze_prompt (fun _ => Returns Examples.malicious_09)
      (Some (lit "hack user password")) = Returns rep
    /\ inject_Z (fst (fst (_keyword_score
                             (strip (or_empty (Some (lit "hack user password")))))))
       <= threatScore rep.
Proof.
  apply (@classifier_never_lowers_the_score
           (fun _ => Returns Examples.malicious_09)
           (Some (lit "hack user password"))).
  discriminate.
Defined.

(** X12. A classifier that raises is not told apart from one that
    returns the safe default: the report is the same, with prediction
    SAFE and confidence 0. *)
Theorem classifier_failure_reads_as_safe_default :
  forall (predict : option str -> outcome MLResult) (prompt : option str)
         (e : exn),
    predict (Some (strip (or_empty prompt))) = Raises e ->
    analyze_prompt predict prompt
    = analyze_prompt (fun _ => Returns _SAFE_DEFAULT) prompt
    /\ exists rep : ThreatReport,
         analyze_prompt predict prompt = Returns rep
         /\ mlPrediction rep = lit "SAFE"
         /\ mlConfidence rep = 0.
Proof.
  intros predict prompt e He.
  assert (Heq : analyze_prompt predict prompt
                = analyze_prompt (fun _ => Returns _SAFE_DEFAULT) prompt).
  { unfold analyze_prompt, or_empty in *. rewrite He.
    destruct (_keyword_score _) as [[kw acts] tgts]. reflexivity. }
  split; [exact Heq |].
  destruct (analyze_prompt_report predict prompt)
    as (rep & Hret & _ & _ & _ & _ & _ & Hp & Hc).
  exists rep. rewrite He in Hp, Hc. now repeat split.
Qed.

Lemma classifier_failure_reads_as_safe_default_witness :
  analyze_prompt (fun _ => Raises (Exn "RuntimeError"%string))
    (Some (lit "how to hack"))
  = analyze_prompt (fun _ => Returns _SAFE_DEFAULT) (Some (lit "how to hack"))
  /\ exists rep : ThreatReport,
       analyze_prompt (fun _ => Raises (Exn "RuntimeError"%string))
         (Some (lit "how to hack")) = Returns rep
       /\ mlPrediction rep = lit "SAFE"
       /\ mlConfidence rep = 0.
Proof.
  apply (@classifier_failure_reads_as_safe_default
           (fun _ => Raises (Exn "RuntimeError"%string))
           (Some (lit "how to hack")) (Exn "RuntimeError"%string)).
  reflexivity.
Defined.

(** X13. The two labels of a report agree with each other: confidence
    high comes only with level HIGH, level SAFE only with confidence
    low, and level MEDIUM never with confidence high; each label takes
    one of its three values. *)
Theorem level_and_confidence_agree :
  forall (predict : option str -> outcome MLResult) (prompt : option str),
    exists rep : ThreatReport,
      analyze_prompt predict prompt = Returns rep
      /\ (confidence rep = lit "high" -> threatLevel rep = lit "HIGH")
      /\ (threatLevel rep = lit "SAFE" -> confidence rep = lit "low")
      /\ (threatLevel rep = lit "MEDIUM" -> confidence rep <> lit "high")
      /\ (threatLevel rep = lit "SAFE" \/ threatLevel rep = lit "MEDIUM"
          \/ threatLevel rep = lit "HIGH")
      /\ (confidence rep = lit "low" \/ confidence rep = lit "medium"
          \/ confidence rep = lit "high").
Proof.
  intros predict prompt.
  destruct (analyze_prompt_report predict prompt)
    as (rep & Hret & Hscore & Hlevel & Hconf & _).
  exists rep. split; [exact Hret |].
  rewrite Hlevel, Hconf. set (s := min 10 _).
  destruct (Qle_bool s 2) eqn:E2; destruct (Qle_bool s 6) eqn:E6;
    destruct (Qle_bool 8 s) eqn:E8; destruct (Qle_bool 4 s) eqn:E4;
    rewrite ?Qle_bool_iff in *; rewrite ?Qle_bool_false in *;
    repeat split; intros; try discriminate; try reflexivity; try lra;
    auto.
Qed.

(** X14. A classifier result MALICIOUS with confidence at least 0.5
    makes the report HIGH, with a confidence label that is not low. *)
Theorem confident_malicious_report_is_high :
  forall (predict : option str -> outcome MLResult) (prompt : option str)
         (r : MLResult),
    predict (Some (strip (or_empty prompt))) = Returns r ->
    ml_prediction r = lit "MALICIOUS" ->
    1 # 2 <= ml_confidence r ->
    exists rep : ThreatReport,
      analyze_prompt predict prompt = Returns rep
      /\ threatLevel rep = lit "HIGH"
      /\ confidence rep <> lit "low".
Proof.
  intros predict prompt r Hr Hl Hc.
  destruct (analyze_prompt_report predict prompt)
    as (rep & Hret & Hscore & Hlevel & Hconf & _).
  exists rep. split; [exact Hret |].
  rewrite Hr in *. cbn [classifier_result] in *.
  assert (H7 : 7 <= threatScore rep).
  { rewrite Hscore. apply min_10_ge; [discriminate |].
    apply (@round_ge 7 _ 1). now apply fused_total_override. }
  rewrite Hlevel, Hconf, <- Hscore.
  assert (E2 : Qle_bool (threatScore rep) 2 = false)
    by (apply Qle_bool_false; lra).
  assert (E6 : Qle_bool (threatScore rep) 6 = false)
    by (apply Qle_bool_false; lra).
  assert (E4 : Qle_bool 4 (threatScore rep) = true)
    by (apply Qle_bool_iff; lra).
  rewrite E2, E6, E4. split; [reflexivity |].
  destruct (Qle_bool 8 (threatScore rep)); intros H; discriminate H.
Qed.

Lemma confident_malicious_report_is_high_witness :
  exists rep : ThreatReport,
    analyze_prompt (fun _ => Returns Examples.malicious_09)
      (Some (lit "good morning")) = Returns rep
    /\ threatLevel rep = lit "HIGH"
    /\ confidence rep <> lit "low".
Proof.
  apply (@confident_malicious_report_is_high
           (fun _ => Returns Examples.malicious_09)
           (Some (lit "good morning")) Examples.malicious_09).
  - reflexivity.
  - reflexivity.
  - discriminate.
Defined.

End FusionFacts.

Section Monotone.

Open Scope Q_scope.

Lemma round_half_even_near_floor (q : Q) :
  (Qfloor q <= round_half_even q <= Qfloor q + 1)%Z.
Proof.
  unfold round_half_even.
  destruct (Qcompare _ _); [destruct (Z.even _) | |]; lia.
Qed.

Lemma round_half_even_mono (q q' : Q) :
  q <= q' -> (round_half_even q <= round_half_even q')%Z.
Proof.
  intros H.
  pose proof (Qfloor_resp_le _ _ H) as Hf.
  pose proof (round_half_even_near_floor q) as Hq.
  pose proof (round_half_even_near_floor q') as Hq'.
  destruct (Z.eq_dec (Qfloor q) (Qfloor q')) as [E | NE]; [| lia].
  unfold round_half_even. rewrite <- E.
  destruct (Qcompare (q - inject_Z (Qfloor q)) (1 # 2)) eqn:C;
    destruct (Qcompare (q' - inject_Z (Qfloor q)) (1 # 2)) eqn:C';
    try (destruct (Z.even (Qfloor q)); lia); try lia;
    rewrite <- ?Qeq_alt, <- ?Qlt_alt, <- ?Qgt_alt in *; lra.
Qed.

Lemma round_mono (q q' : Q) (n : nat) : q <= q' -> round q n <= round q' n.
Proof.
  intros H. unfold round.
  set (p := Z.to_pos (10 ^ Z.of_nat n)).
  assert (Hr : (round_half_even (q * inject_Z (Zpos p))
                <= round_half_even (q' * inject_Z (Zpos p)))%Z).
  { apply round_half_even_mono.
    apply Qmult_le_compat_r; [assumption | unfold Qle; simpl; lia]. }
  unfold Qle. simpl. nia.
Qed.

Lemma min_10_mono (a b : Q) : a <= b -> min 10 a <= min 10 b.
Proof.
  intros H. unfold min.
  destruct (Qle_bool 10 a) eqn:Ea; destruct (Qle_bool 10 b) eqn:Eb;
    rewrite ?Qle_bool_iff in *; rewrite ?Qle_bool_false in *; lra.
Qed.

Lemma fused_total_mono (kw : Z) (r1 r2 : MLResult) :
  ml_prediction r1 = lit "MALICIOUS" ->
  ml_prediction r2 = lit "MALICIOUS" ->
  ml_confidence r1 <= ml_confidence r2 ->
  fused_total kw r1 <= fused_total kw r2.
Proof.
  intros H1 H2 Hc. unfold fused_total. rewrite H1, H2.
  assert (E : str_eqb (lit "MALICIOUS") (lit "MALICIOUS") = true)
    by now apply str_eq_lit.
  rewrite E.
  destruct (Qle_bool (1 # 2) (ml_confidence r1)) eqn:E1;
    destruct (Qle_bool (1 # 2) (ml_confidence r2)) eqn:E2;
    destruct (Qle_bool 7 (inject_Z kw + ml_confidence r1 * 5)) eqn:E3;
    destruct (Qle_bool 7 (inject_Z kw + ml_confidence r2 * 5)) eqn:E4;
    rewrite ?Qle_bool_iff in *; rewrite ?Qle_bool_false in *; lra.
Qed.

(** X15. For one prompt, of two classifier results labelled MALICIOUS
    the one with the higher confidence never gets the lower score. *)
Theorem score_is_monotone_in_confidence :
  forall (predict1 predict2 : option str -> outcome MLResult)
         (prompt : option str) (r1 r2 : MLResult),
    predict1 (Some (strip (or_empty prompt))) = Returns r1 ->
    predict2 (Some (strip (or_empty prompt))) = Returns r2 ->
    ml_prediction r1 = lit "MALICIOUS" ->
    ml_prediction r2 = lit "MALICIOUS" ->
    ml_confidence r1 <= ml_confidence r2 ->
    exists rep1 rep2 : ThreatReport,
      analyze_prompt predict1 prompt = Returns rep1
      /\ analyze_prompt predict2 prompt = Returns rep2
      /\ threatScore rep1 <= threatScore rep2.
Proof.
  intros predict1 predict2 prompt r1 r2 Hr1 Hr2 Hl1 Hl2 Hc.
  destruct (analyze_prompt_report predict1 prompt)
    as (rep1 & Hret1 & Hs1 & _).
  destruct (analyze_prompt_report predict2 prompt)
    as (rep2 & Hret2 & Hs2 & _).
  exists rep1, rep2. split; [exact Hret1 |]. split; [exact Hret2 |].
  rewrite Hs1, Hs2, Hr1, Hr2. cbn [classifier_result].
  apply min_10_mono, round_mono. now apply fused_total_mono.
Qed.

Lemma score_is_monotone_in_confidence_witness :
  exists rep1 rep2 : ThreatReport,
    analyze_prompt
      (fun _ => Returns {| ml_prediction := lit "MALICIOUS";
                           ml_confidence := 1 # 5 |})
      (Some (lit "how to hack a password")) = Returns rep1
    /\ analyze_prompt (fun _ => Returns Examples.malicious_09)
         (Some (lit "how to hack a password")) = Returns rep2
    /\ threatScore rep1 <= threatScore rep2.
Proof.
  apply (@score_is_monotone_in_confidence
           (fun _ => Returns {| ml_prediction := lit "MALICIOUS";
                                ml_confidence := 1 # 5 |})
           (fun _ => Returns Examples.malicious_09)
           (Some (lit "how to hack a password"))
           {| ml_prediction := lit "MALICIOUS"; ml_confidence := 1 # 5 |}
           Examples.malicious_09).
  - reflexivity.
  - reflexivity.
  - reflexivity.
  - reflexivity.
  - discriminate.
Defined.

End Monotone.

(* ================================================================== *)
(** * Further properties of the adapter, the import and the scripts *)
(* ================================================================== *)

Section AdapterFacts.

Open Scope Q_scope.

Lemma blank_lower (ws : str) : blank_str ws -> blank_str (lower ws).
Proof.
  unfold blank_str, lower. rewrite !forallb_forall. intros H c Hc.
  apply in_map_iff in Hc. destruct Hc as (c0 & <- & Hc0).
  rewrite is_space_lower_char. now apply H.
Qed.

Lemma preprocess_pad (ws1 s ws2 : str) :
  blank_str ws1 -> blank_str ws2 ->
  _preprocess (Some (ws1 ++ s ++ ws2)) = _preprocess (Some s).
Proof.
  intros H1 H2. unfold _preprocess, lower. rewrite !map_app.
  apply strip_pad; now apply blank_lower.
Qed.

(** X16. The adapter sees a prompt only through [_preprocess]: white
    space around the prompt and the case of its letters do not change
    the result, a blank prompt is treated as a null one, and
    preprocessing a preprocessed text changes nothing. *)
Theorem adapter_sees_only_the_preprocessed_prompt :
  forall (X : Type) (model : option (Model X))
         (vectorizer : option (Vectorizer X)) (s ws1 ws2 : str),
    blank_str ws1 -> blank_str ws2 ->
    predict_prompt model vectorizer (Some (ws1 ++ s ++ ws2))
    = predict_prompt model vectorizer (Some s)
    /\ predict_prompt model vectorizer (Some (lower s))
       = predict_prompt model vectorizer (Some s)
    /\ predict_prompt model vectorizer (Some (ws1 ++ ws2))
       = predict_prompt model vectorizer None
    /\ _preprocess (Some (_preprocess (Some s))) = _preprocess (Some s).
Proof.
  intros X model vectorizer s ws1 ws2 H1 H2.
  split; [| split; [| split]].
  - apply predict_prompt_preprocess. now apply preprocess_pad.
  - apply predict_prompt_preprocess. unfold _preprocess.
    now rewrite lower_idem.
  - apply predict_prompt_preprocess.
    pose proof (preprocess_pad [] H1 H2) as H. simpl in H. exact H.
  - unfold _preprocess. now rewrite <- strip_lower, lower_idem, strip_idem.
Qed.

Lemma adapter_sees_only_the_preprocessed_prompt_witness :
  let model := Some Examples.malicious_model in
  let vectorizer := Some Examples.constant_vectorizer in
  let s := lit "Hello World" in
  let ws1 := lit "  " in
  let ws2 := lit " " in
  predict_prompt model vectorizer (Some (ws1 ++ s ++ ws2))
  = predict_prompt model vectorizer (Some s)
  /\ predict_prompt model vectorizer (Some (lower s))
     = predict_prompt model vectorizer (Some s)
  /\ predict_prompt model vectorizer (Some (ws1 ++ ws2))
     = predict_prompt model vectorizer None
  /\ _preprocess (Some (_preprocess (Some s))) = _preprocess (Some s).
Proof.
  apply (@adapter_sees_only_the_preprocessed_prompt unit
           (Some Examples.malicious_model)
           (Some Examples.constant_vectorizer)
           (lit "Hello World") (lit "  ") (lit " ")).
  - reflexivity.
  - reflexivity.
Defined.

Lemma predict_prompt_returns {X : Type}
    (model : option (Model X)) (vectorizer : option (Vectorizer X))
    (prompt : option str) :
  exists r : MLResult,
    predict_prompt model vectorizer prompt = Returns r
    /\ (ml_prediction r = lit "SAFE" \/ ml_prediction r = lit "MALICIOUS").
Proof.
  unfold predict_prompt.
  destruct model as [m |]; [destruct vectorizer as [v |] |];
    try (exists _SAFE_DEFAULT; split; [reflexivity | now left]).
  destruct (predict_try m v prompt) as [r | e] eqn:E; cbn [try_except].
  - exists r. split; [reflexivity | exact (predict_try_label m v prompt E)].
  - exists _SAFE_DEFAULT. split; [reflexivity | now left].
Qed.

End AdapterFacts.

Section ImportFacts.

Lemma import_both_or_neither {X : Type} (model_pkl : artifact (Model X))
    (vectorizer_pkl : artifact (Vectorizer X))
    (m : option (Model X)) (v : option (Vectorizer X)) :
  import_ml_model model_pkl vectorizer_pkl = Returns (m, v) ->
  (m = None /\ v = None)
  \/ exists m' v',
       m = Some m' /\ v = Some v'
       /\ model_pkl = Present (Returns m')
       /\ vectorizer_pkl = Present (Returns v').
Proof.
  unfold import_ml_model, try_except_only.
  destruct model_pkl as [| [m0 | e]]; cbn.
  - intros H. injection H as <- <-. now left.
  - destruct vectorizer_pkl as [| [v0 | e]]; cbn.
    + intros H. injection H as <- <-. now left.
    + intros H. injection H as <- <-. right. now exists m0, v0.
    + destruct (is_instance _ e); [| discriminate].
      intros H. injection H as <- <-. now left.
  - destruct (is_instance _ e); [| discriminate].
    intros H. injection H as <- <-. now left.
Qed.

(** X18. After the import the globals [model] and [vectorizer] are both
    set or both [None], and they are set only if both files were there
    and unpickled. A missing model file gives [None] for both whatever
    the vectorizer file is, and so does a missing vectorizer file next
    to a model file that unpickles. When no file raises, the globals are
    those of [load_globals]. *)
Theorem import_sets_both_globals_or_neither :
  forall (X : Type) (model_pkl : artifact (Model X))
         (vectorizer_pkl : artifact (Vectorizer X)),
    (forall m v,
        import_ml_model model_pkl vectorizer_pkl = Returns (m, v) ->
        (m = None /\ v = None)
        \/ exists m' v',
             m = Some m' /\ v = Some v'
             /\ model_pkl = Present (Returns m')
             /\ vectorizer_pkl = Present (Returns v'))
    /\ (model_pkl = Missing ->
        import_ml_model model_pkl vectorizer_pkl = Returns (None, None))
    /\ (forall m, model_pkl = Present (Returns m) ->
                  vectorizer_pkl = Missing ->
                  import_ml_model model_pkl vectorizer_pkl
                  = Returns (None, None))
    /\ (forall m v, model_pkl = Present (Returns m) ->
                    vectorizer_pkl = Present (Returns v) ->
                    import_ml_model model_pkl vectorizer_pkl
                    = Returns (Some m, Some v))
    /\ ((forall e, model_pkl <> Present (Raises e)) ->
        (forall e, vectorizer_pkl <> Present (Raises e)) ->
        import_ml_model model_pkl vectorizer_pkl
        = Returns (load_globals (loaded model_pkl) (loaded vectorizer_pkl))).
Proof.
  intros X model_pkl vectorizer_pkl.
  split; [| split; [| split; [| split]]].
  - intros m v. apply import_both_or_neither.
  - intros ->. reflexivity.
  - intros m -> ->. reflexivity.
  - intros m v -> ->. reflexivity.
  - intros Hm Hv.
    destruct model_pkl as [| [m | e]]; [reflexivity | | now destruct (Hm e)].
    destruct vectorizer_pkl as [| [v | e]];
      [reflexivity | reflexivity | now destruct (Hv e)].
Qed.

(** X19. An error other than [FileNotFoundError] while a file that is
    there is opened or unpickled is not absorbed: it ends the import of
    [ml_model]. The model file is read first, so its error wins. *)
Theorem import_fails_on_a_file_that_does_not_unpickle :
  forall (X : Type) (model_pkl : artifact (Model X))
         (vectorizer_pkl : artifact (Vectorizer X)) (e : exn),
    is_instance "FileNotFoundError" e = false ->
    (model_pkl = Present (Raises e) ->
     import_ml_model model_pkl vectorizer_pkl = Raises e)
    /\ (forall m, model_pkl = Present (Returns m) ->
                  vectorizer_pkl = Present (Raises e) ->
                  import_ml_model model_pkl vectorizer_pkl = Raises e).
Proof.
  intros X model_pkl vectorizer_pkl e He. split.
  - intros ->. unfold import_ml_model, try_except_only. cbn. now rewrite He.
  - intros m -> ->. unfold import_ml_model, try_except_only. cbn.
    now rewrite He.
Qed.

Lemma import_fails_on_a_file_that_does_not_unpickle_witness :
  let e := Exn "UnpicklingError"%string in
  let model_pkl : artifact (Model unit) := Present (Raises e) in
  let vectorizer_pkl : artifact (Vectorizer unit) := Missing in
  (model_pkl = Present (Raises e) ->
   import_ml_model model_pkl vectorizer_pkl = Raises e)
  /\ (forall m, model_pkl = Present (Returns m) ->
                vectorizer_pkl = Present (Raises e) ->
                import_ml_model model_pkl vectorizer_pkl = Raises e).
Proof.
  apply (@import_fails_on_a_file_that_does_not_unpickle unit
           (Present (Raises (Exn "UnpicklingError"%string))) Missing
           (Exn "UnpicklingError"%string)).
  reflexivity.
Defined.

(** X20. [ml_request.py] prints a result in every case, with label SAFE
    or MALICIOUS: the safe default when the import of [ml_model] fails,
    when standard input cannot be read or when an artifact is missing,
    and otherwise what [predict_prompt] returns for the text read. *)
Theorem ml_request_always_prints_a_result :
  forall (X : Type) (model_pkl : artifact (Model X))
         (vectorizer_pkl : artifact (Vectorizer X)) (stdin_read : outcome str),
    exists r : MLResult,
      MlRequest.script model_pkl vectorizer_pkl stdin_read = Returns r
      /\ (ml_prediction r = lit "SAFE" \/ ml_prediction r = lit "MALICIOUS")
      /\ (forall e, import_ml_model model_pkl vectorizer_pkl = Raises e ->
                    r = _SAFE_DEFAULT)
      /\ (forall e, stdin_read = Raises e -> r = _SAFE_DEFAULT)
      /\ (model_pkl = Missing \/ vectorizer_pkl = Missing ->
          r = _SAFE_DEFAULT)
      /\ (forall m v prompt,
            import_ml_model model_pkl vectorizer_pkl = Returns (m, v) ->
            stdin_read = Returns prompt ->
            predict_prompt m v (Some prompt) = Returns r).
Proof.
  intros X model_pkl vectorizer_pkl stdin_read.
  unfold MlRequest.script.
  assert (Hmiss : model_pkl = Missing \/ vectorizer_pkl = Missing ->
                  forall g, import_ml_model model_pkl vectorizer_pkl = Returns g ->
                            g = (None, None)).
  { intros Hm [m v] Hg.
    destruct (import_both_or_neither _ _ Hg)
      as [[-> ->] | (m' & v' & _ & _ & Hm' & Hv')];
      [reflexivity |].
    destruct Hm as [Hm | Hm]; congruence. }
  destruct (import_ml_model model_pkl vectorizer_pkl) as [[m v] | e] eqn:Ei;
    cbn [bind try_except].
  - destruct stdin_read as [prompt | e] eqn:Es; cbn [bind try_except fst snd].
    + destruct (predict_prompt_returns m v (Some prompt)) as (r & Hr & Hl).
      rewrite Hr. cbn [bind try_except]. exists r.
      split; [reflexivity |]. split; [exact Hl |].
      split; [discriminate |]. split; [discriminate |]. split.
      * intros Hm. pose proof (Hmiss Hm _ eq_refl) as Hg.
        injection Hg as -> ->. cbn in Hr. now injection Hr.
      * intros m0 v0 p0 Hg Hp. injection Hg as <- <-. injection Hp as <-.
        exact Hr.
    + exists _SAFE_DEFAULT. split; [reflexivity |]. split; [now left |].
      repeat split; try reflexivity. discriminate.
  - exists _SAFE_DEFAULT. split; [reflexivity |]. split; [now left |].
    repeat split; try reflexivity. discriminate.
Qed.

End ImportFacts.

Section CliFacts.

Lemma index_second {A : Type} (x y : A) (l : list A) :
  index (x :: y :: l) 1 = Returns y.
Proof.
  unfold index. cbn [Z.ltb Z.compare].
  destruct (Z.ltb_spec 1 (Z.of_nat (length (x :: y :: l)))) as [H | H].
  - reflexivity.
  - cbn [length] in H. lia.
Qed.

(** X21. [main] of [detector.py] analyses its first argument when there
    is one, whatever further arguments and standard input hold, and does
    not read standard input then; with no argument it analyses standard
    input, and white space after the text, such as the final newline of
    a pipe, does not change the report; an error while reading standard
    input is not caught. *)
Theorem cli_analyzes_argument_or_stdin :
  forall (predict : option str -> outcome MLResult) (prog a : str)
         (rest : list str) (ws : str) (stdin_read : outcome str) (e : exn),
    blank_str ws ->
    Cli.main predict (prog :: a :: rest) stdin_read
    = analyze_prompt predict (Some a)
    /\ Cli.main predict [prog] (Returns (a ++ ws))
       = analyze_prompt predict (Some a)
    /\ Cli.main predict [prog] (Raises e) = Raises e.
Proof.
  intros predict prog a rest ws stdin_read e Hws.
  split; [| split].
  - unfold Cli.main.
    assert (H : (1 <? Z.of_nat (length (prog :: a :: rest)))%Z = true)
      by (apply Z.ltb_lt; cbn [length]; lia).
    rewrite H, index_second. reflexivity.
  - unfold Cli.main.
    assert (H : (1 <? Z.of_nat (length [prog]))%Z = false) by reflexivity.
    rewrite H. cbn [bind]. unfold analyze_prompt.
    pose proof (@strip_pad [] a ws eq_refl Hws) as Hp. cbn [app] in Hp.
    now rewrite Hp.
  - reflexivity.
Qed.

Lemma cli_analyzes_argument_or_stdin_witness :
  let predict : option str -> outcome MLResult :=
    fun _ => Returns _SAFE_DEFAULT in
  let prog := lit "detector.py" in
  let a := lit "how to hack a password" in
  let rest := [lit "ignored"] in
  let ws := [ascii_of_N 10] in
  let stdin_read : outcome str := Raises (Exn "OSError"%string) in
  let e := Exn "OSError"%string in
  Cli.main predict (prog :: a :: rest) stdin_read
  = analyze_prompt predict (Some a)
  /\ Cli.main predict [prog] (Returns (a ++ ws))
     = analyze_prompt predict (Some a)
  /\ Cli.main predict [prog] (Raises e) = Raises e.
Proof.
  apply (@cli_analyzes_argument_or_stdin
           (fun _ => Returns _SAFE_DEFAULT)
           (lit "detector.py") (lit "how to hack a password")
           [lit "ignored"] [ascii_of_N 10]
           (Raises (Exn "OSError"%string)) (Exn "OSError"%string)).
  reflexivity.
Defined.

End CliFacts.

(* ================================================================== *)
(** * ml_train.py: the human prompt of a transcript *)
(* ================================================================== *)

Section Substrings.

Lemma startswith_app (p s t : str) :
  startswith p s = true -> startswith p (s ++ t) = true.
Proof.
  revert s. induction p as [| x p IH]; intros s; [reflexivity |].
  destruct s as [| y s]; simpl; [discriminate |].
  intros H. apply andb_true_iff in H. destruct H as [-> H].
  now apply IH.
Qed.

Lemma contains_app_r (p s t : str) :
  contains p s = true -> contains p (s ++ t) = true.
Proof.
  induction s as [| c s IH]; simpl.
  - rewrite orb_false_r. intros H. destruct p; [| discriminate].
    now destruct t.
  - intros H. apply orb_true_iff in H. apply orb_true_iff.
    destruct H as [H | H].
    + left. now apply (startswith_app p (c :: s) t).
    + right. now apply IH.
Qed.

Lemma contains_app_l (p s t : str) :
  contains p t = true -> contains p (s ++ t) = true.
Proof.
  intros H. induction s as [| c s IH]; [assumption |].
  simpl. rewrite IH. apply orb_true_r.
Qed.

Lemma contains_middle (p a b c : str) :
  contains p b = true -> contains p (a ++ b ++ c) = true.
Proof. intros H. now apply contains_app_l, contains_app_r. Qed.

Lemma strip_middle (x : str) :
  exists ws1 ws2, blank_str ws1 /\ blank_str ws2 /\ x = ws1 ++ strip x ++ ws2.
Proof.
  destruct (lstrip_split x) as (ws1 & H1 & E1).
  destruct (rstrip_split (lstrip x)) as (ws2 & H2 & E2).
  exists ws1, ws2. split; [assumption |]. split; [assumption |].
  unfold strip. now rewrite <- E2.
Qed.

Lemma contains_strip (p x : str) :
  contains p (strip x) = true -> contains p x = true.
Proof.
  intros H. destruct (strip_middle x) as (ws1 & ws2 & _ & _ & E).
  rewrite E. now apply contains_middle.
Qed.

Lemma contains_lstrip (p x : str) :
  contains p (lstrip x) = true -> contains p x = true.
Proof.
  intros H. destruct (lstrip_split x) as (ws & _ & E).
  rewrite E. now apply contains_app_l.
Qed.

Lemma before_first_prefix (sep s : str) :
  exists rest, s = MlTrain.before_first sep s ++ rest.
Proof.
  induction s as [| c s (rest & E)]; simpl.
  - exists []. now destruct (startswith sep []).
  - destruct (startswith sep (c :: s)).
    + now exists (c :: s).
    + exists rest. simpl. now rewrite <- E.
Qed.

Lemma before_first_free (sep s : str) :
  sep <> [] -> contains sep (MlTrain.before_first sep s) = false.
Proof.
  intros Hne. induction s as [| c s IH].
  - simpl. destruct sep; [contradiction | reflexivity].
  - cbn [MlTrain.before_first].
    destruct (startswith sep (c :: s)) eqn:E.
    + destruct sep; [contradiction | reflexivity].
    + cbn [contains]. rewrite IH, orb_false_r.
      destruct (startswith sep (c :: MlTrain.before_first sep s)) eqn:E';
        [| reflexivity].
      destruct (before_first_prefix sep s) as (rest & Es).
      pose proof (startswith_app sep _ rest E') as H.
      cbn [app] in H. rewrite <- Es in H. congruence.
Qed.

End Substrings.

Section ExtractFacts.

Import MlTrain.

(** X22. [extract_human_prompt] returns a text without white space at
    either end in which "Assistant:" does not occur; it returns the
    empty string for a null or empty text and for a text in which
    "Human:" does not occur. *)
Theorem extract_human_prompt_is_trimmed_and_stops_at_assistant :
  forall text : option str,
    strip (extract_human_prompt text) = extract_human_prompt text
    /\ contains ASSISTANT (extract_human_prompt text) = false
    /\ (text = None \/ text = Some []
        \/ (exists t, text = Some t /\ contains HUMAN t = false) ->
        extract_human_prompt text = []).
Proof.
  intros text.
  assert (Hfree : forall x, contains ASSISTANT x = false ->
                            contains ASSISTANT (strip x) = false).
  { intros x Hx. destruct (contains ASSISTANT (strip x)) eqn:E;
      [| reflexivity].
    apply contains_strip in E. congruence. }
  split; [| split].
  - destruct text as [[| c t] |]; try reflexivity.
    unfold extract_human_prompt.
    destruct (negb (contains HUMAN (c :: t))); [reflexivity |].
    apply strip_idem.
  - destruct text as [[| c t] |]; try reflexivity.
    unfold extract_human_prompt.
    destruct (negb (contains HUMAN (c :: t))); [reflexivity |].
    set (after := strip (split_once_last HUMAN (c :: t))).
    destruct (contains ASSISTANT after) eqn:E.
    + apply Hfree, before_first_free. discriminate.
    + now apply Hfree.
  - intros [-> | [-> | (t & -> & Ht)]]; try reflexivity.
    destruct t as [| c t]; [reflexivity |].
    unfold extract_human_prompt. now rewrite Ht.
Qed.

Lemma after_first_human (ws body : str) :
  blank_str ws -> after_first HUMAN (ws ++ HUMAN ++ body) = Some body.
Proof.
  unfold blank_str. induction ws as [| c ws IH]; intros H.
  - reflexivity.
  - simpl in H. apply andb_true_iff in H. destruct H as [Hc Hws].
    cbn [app after_first].
    assert (Hs : startswith HUMAN (c :: ws ++ HUMAN ++ body) = false).
    { unfold HUMAN at 1. cbn [lit list_ascii_of_string startswith].
      destruct (Ascii.eqb_spec "H"%char c) as [<- | Hne];
        [discriminate Hc | reflexivity]. }
    rewrite Hs. now apply IH.
Qed.

Lemma contains_human_padded (ws body : str) :
  contains HUMAN (ws ++ HUMAN ++ body) = true.
Proof. apply contains_middle. reflexivity. Qed.

Lemma lstrip_app_headed (x y : str) :
  headed y -> lstrip (x ++ y) = lstrip x ++ y.
Proof.
  intros H. induction x as [| c x IH]; simpl.
  - now apply headed_lstrip.
  - destruct (is_space c); [assumption | reflexivity].
Qed.

Lemma strip_around_assistant (q r : str) :
  strip (q ++ ASSISTANT ++ r) = lstrip q ++ ASSISTANT ++ rstrip r.
Proof.
  unfold strip. rewrite lstrip_app_headed by reflexivity.
  unfold rstrip. rewrite !rev_app_distr, <- app_assoc.
  rewrite lstrip_app_headed by reflexivity.
  now rewrite !rev_app_distr, !rev_involutive, <- app_assoc.
Qed.

(** "Assistant:" does not overlap itself: an occurrence that starts
    before a copy of it lies before that copy. *)
Lemma assistant_no_overlap (x y : str) :
  x <> [] ->
  startswith ASSISTANT (x ++ ASSISTANT ++ y) = startswith ASSISTANT x.
Proof.
  intros Hne. destruct x as [| c1 x]; [contradiction |]. clear Hne.
  unfold ASSISTANT. cbn [lit list_ascii_of_string].
  repeat (cbn [app startswith];
          match goal with
          | |- (Ascii.eqb ?a ?b && _)%bool = (Ascii.eqb ?a ?b && _)%bool =>
              destruct (Ascii.eqb a b); [cbn [andb] | reflexivity]
          end;
          try (destruct x as [| ? x]; [cbn; reflexivity |])).
  reflexivity.
Qed.

Lemma before_first_assistant (x y : str) :
  contains ASSISTANT x = false ->
  before_first ASSISTANT (x ++ ASSISTANT ++ y) = x.
Proof.
  induction x as [| c x IH]; intros H.
  - reflexivity.
  - cbn [contains] in H. apply orb_false_iff in H. destruct H as [Hs Hc].
    change ((c :: x) ++ ASSISTANT ++ y)
      with (c :: (x ++ ASSISTANT ++ y)).
    cbn [before_first].
    change (c :: (x ++ ASSISTANT ++ y))
      with ((c :: x) ++ ASSISTANT ++ y).
    rewrite assistant_no_overlap by discriminate.
    rewrite Hs. f_equal. now apply IH.
Qed.

(** X23. For a transcript that starts, after white space at most, with
    "Human:" followed by a question in which "Assistant:" does not
    occur, [extract_human_prompt] returns the question, trimmed, whether
    or not "Assistant:" and a reply follow. *)
Theorem extract_human_prompt_of_a_transcript :
  forall ws q r : str,
    blank_str ws ->
    contains ASSISTANT q = false ->
    extract_human_prompt (Some (ws ++ HUMAN ++ q ++ ASSISTANT ++ r)) = strip q
    /\ extract_human_prompt (Some (ws ++ HUMAN ++ q)) = strip q.
Proof.
  intros ws q r Hws Hq.
  assert (Hgen : forall body,
            extract_human_prompt (Some (ws ++ HUMAN ++ body))
            = strip (if contains ASSISTANT (strip body)
                     then before_first ASSISTANT (strip body)
                     else strip body)).
  { intros body. unfold extract_human_prompt.
    destruct (ws ++ HUMAN ++ body) as [| c t] eqn:E.
    - destruct ws; discriminate.
    - rewrite <- E, contains_human_padded. cbn [negb].
      unfold split_once_last. now rewrite after_first_human. }
  split.
  - rewrite Hgen, strip_around_assistant.
    assert (Hc : contains ASSISTANT (lstrip q ++ ASSISTANT ++ rstrip r) = true)
      by (apply contains_middle; reflexivity).
    rewrite Hc, before_first_assistant.
    + unfold strip. now rewrite lstrip_idem.
    + destruct (contains ASSISTANT (lstrip q)) eqn:E; [| reflexivity].
      apply contains_lstrip in E. congruence.
  - rewrite Hgen.
    destruct (contains ASSISTANT (strip q)) eqn:E.
    + apply contains_strip in E. congruence.
    + apply strip_idem.
Qed.

Lemma extract_human_prompt_of_a_transcript_witness :
  let ws := [ascii_of_N 10; ascii_of_N 10] in
  let q := lit " How do I bake bread? " in
  let r := lit " Mix flour and water." in
  extract_human_prompt (Some (ws ++ HUMAN ++ q ++ ASSISTANT ++ r)) = strip q
  /\ extract_human_prompt (Some (ws ++ HUMAN ++ q)) = strip q.
Proof.
  apply (@extract_human_prompt_of_a_transcript
           [ascii_of_N 10; ascii_of_N 10]
           (lit " How do I bake bread? ") (lit " Mix flour and water.")).
  - reflexivity.
  - reflexivity.
Defined.

End ExtractFacts.

Section CorpusFacts.

Import MlTrain.

Lemma preprocess_fixed (x : str) :
  let t := preprocess (Some x) in
  strip t = t /\ lower t = t /\ _preprocess (Some t) = t.
Proof.
  cbv zeta. unfold preprocess, _preprocess.
  assert (H1 : strip (strip (lower x)) = strip (lower x)) by apply strip_idem.
  assert (H2 : lower (strip (lower x)) = strip (lower x))
    by now rewrite <- strip_lower, lower_idem.
  now rewrite H2, H1.
Qed.

Lemma add_entry_pairs (ps : list (str * Z)) (e : entry) :
  exists new : list (str * Z),
    add_entry (map fst ps, map snd ps) e
    = (map fst (ps ++ new), map snd (ps ++ new))
    /\ forall t l, In (t, l) new ->
         t <> []
         /\ ((l = 0%Z
              /\ t = preprocess (Some (extract_human_prompt (Some (chosen e)))))
             \/ (l = 1%Z
                 /\ t = preprocess
                          (Some (extract_human_prompt (Some (rejected e)))))).
Proof.
  unfold add_entry.
  set (hc := preprocess (Some (extract_human_prompt (Some (chosen e))))).
  set (hr := preprocess (Some (extract_human_prompt (Some (rejected e))))).
  destruct hc as [| c1 t1] eqn:Ec; destruct hr as [| c2 t2] eqn:Er.
  - exists []. split; [now rewrite app_nil_r | intros t l []].
  - exists [(c2 :: t2, 1%Z)]. split; [now rewrite !map_app |].
    intros t l [E | []]. injection E as <- <-.
    split; [discriminate | now right].
  - exists [(c1 :: t1, 0%Z)]. split; [now rewrite !map_app |].
    intros t l [E | []]. injection E as <- <-.
    split; [discriminate | now left].
  - exists [(c1 :: t1, 0%Z); (c2 :: t2, 1%Z)]. split.
    + rewrite !map_app. cbn [map fst snd]. now rewrite <- !app_assoc.
    + intros t l [E | [E | []]]; injection E as <- <-;
        (split; [discriminate |]); [now left | now right].
Qed.

Lemma corpus_pairs (entries : list entry) (ps : list (str * Z)) :
  exists new : list (str * Z),
    fold_left add_entry entries (map fst ps, map snd ps)
    = (map fst (ps ++ new), map snd (ps ++ new))
    /\ forall t l, In (t, l) new ->
         t <> []
         /\ exists e, In e entries
              /\ ((l = 0%Z
                   /\ t = preprocess
                            (Some (extract_human_prompt (Some (chosen e)))))
                  \/ (l = 1%Z
                      /\ t = preprocess
                               (Some (extract_human_prompt
                                        (Some (rejected e)))))).
Proof.
  revert ps. induction entries as [| e entries IH]; intros ps.
  - exists []. split; [now rewrite app_nil_r | intros t l []].
  - cbn [fold_left].
    destruct (add_entry_pairs ps e) as (new1 & E1 & H1). rewrite E1.
    destruct (IH (ps ++ new1)) as (new2 & E2 & H2). rewrite E2.
    exists (new1 ++ new2). split; [now rewrite <- app_assoc |].
    intros t l Hin. apply in_app_or in Hin. destruct Hin as [Hin | Hin].
    + destruct (H1 t l Hin) as [Hne Hc]. split; [assumption |].
      exists e. split; [now left | assumption].
    + destruct (H2 t l Hin) as (Hne & e' & He' & Hc). split; [assumption |].
      exists e'. split; [now right | assumption].
Qed.

(** X24. The corpus read from the parsed lines keeps texts and labels
    aligned: the two lists are the two sides of one list of pairs, so
    they have the same length, and each pair is the preprocessed human
    prompt of some line's chosen text with label 0 or of its rejected
    text with label 1. Every text is non-empty, lower case and trimmed,
    and is the text the adapter computes from it at prediction time. A
    corpus with no pair raises [ValueError]. *)
Theorem corpus_keeps_texts_and_labels_aligned :
  forall entries : list entry,
    exists pairs : list (str * Z),
      fold_left add_entry entries ([], []) = (map fst pairs, map snd pairs)
      /\ length (map fst pairs) = length (map snd pairs)
      /\ (forall t l, In (t, l) pairs ->
            t <> [] /\ strip t = t /\ lower t = t
            /\ _preprocess (Some t) = t
            /\ exists e, In e entries
                 /\ ((l = 0%Z
                      /\ t = preprocess
                               (Some (extract_human_prompt (Some (chosen e)))))
                     \/ (l = 1%Z
                         /\ t = preprocess
                                  (Some (extract_human_prompt
                                           (Some (rejected e)))))))
      /\ read_corpus entries
         = match pairs with
           | [] => Raises (Exn "ValueError"%string)
           | _ :: _ => Returns (map fst pairs, map snd pairs)
           end.
Proof.
  intros entries.
  destruct (corpus_pairs entries []) as (pairs & E & H).
  cbn [map app] in E. exists pairs.
  split; [exact E |]. split; [now rewrite !length_map |]. split.
  - intros t l Hin. destruct (H t l Hin) as (Hne & e & He & Hc).
    assert (Hfix : strip t = t /\ lower t = t /\ _preprocess (Some t) = t).
    { destruct Hc as [[_ ->] | [_ ->]]; apply preprocess_fixed. }
    destruct Hfix as (H1 & H2 & H3).
    repeat (split; [assumption |]). now exists e.
  - unfold read_corpus. rewrite E. now destruct pairs.
Qed.

End CorpusFacts.
